(** * Forward-scattering Hamiltonian construction (scripts/QCD-RE.py)

    A shallow embedding of the Hamiltonian-construction pipeline of
    [scripts/QCD-RE.py]: momentum sampling, the pairwise coupling, the
    complete interaction graph and its expansion into weighted Pauli
    strings.

    Modelling conventions.
    - Python floats are read as real numbers ([R]); every statement about
      a weight is a statement of exact real arithmetic.
    - A Python [dict] keeps its keys in insertion order; it is an
      association list with unique keys ([PyDict]).
    - [networkx.Graph] is its two dictionaries: the node table and the
      adjacency table, whose order fixes the order in which [edges]
      reports the edges.
    - A lookup [d[k]] that can raise [KeyError] returns [option].
    - Node identifiers are the values of the counter [node_id], natural
      numbers; the particle count is any Python integer ([Z]).
    - The random generator is an oracle [draws]: [draws k] is the triple
      of normal variates obtained by the [k]-th call (counting from 0) of
      [generate_spherical_momentum] in a run. *)

From Stdlib Require Import Ascii String.
From Stdlib Require Import Reals Lra Psatz Lia.
From Stdlib Require Import List Finite Arith ZArith Bool.
From Stdlib Require DecimalString DecimalZ DecimalPos.
Import ListNotations.

(** ** Insertion-ordered dictionaries *)

Module PyDict.

Definition dict (V : Type) := list (nat * V).

(** [d.get(k)]; [None] is the [KeyError] of [d[k]]. *)
Fixpoint get {V} (d : dict V) (k : nat) : option V :=
  match d with
  | [] => None
  | (k', v) :: d' => if Nat.eqb k' k then Some v else get d' k
  end.

(** [d[k] = v]: an existing key keeps its place, a new one goes last. *)
Fixpoint set {V} (d : dict V) (k : nat) (v : V) : dict V :=
  match d with
  | [] => [(k, v)]
  | (k', v') :: d' =>
      if Nat.eqb k' k then (k', v) :: d' else (k', v') :: set d' k v
  end.

Definition keys {V} (d : dict V) : list nat := map fst d.

(** The dictionary [{a: f a, ..., a+m-1: f (a+m-1)}] in key order. *)
Definition tab {V} (f : nat -> V) (a m : nat) : dict V :=
  map (fun i => (i, f i)) (seq a m).

End PyDict.

Import PyDict.

(** ** The option (error) monad of the fallible lookups *)

Definition bind {A B} (x : option A) (f : A -> option B) : option B :=
  match x with
  | Some a => f a
  | None => None
  end.

Notation "x <- e ;; k" := (bind e (fun x => k))
  (at level 61, e at next level, right associativity).

(** ** Momenta and couplings *)

Open Scope R_scope.

(** A momentum is the Python list [[px, py, pz]]. *)
Definition momentum3 : Type := (R * R * R)%type.

(** [numpy.inner] on two 3-element lists. *)
Definition inner (p q : momentum3) : R :=
  let '(px, py, pz) := p in
  let '(qx, qy, qz) := q in
  px * qx + py * qy + pz * qz.

(** The Euclidean norm of a momentum. *)
Definition norm (p : momentum3) : R :=
  let '(px, py, pz) := p in sqrt (px ^ 2 + py ^ 2 + pz ^ 2).

(** [generate_spherical_momentum], given the three variates it draws. *)
Definition generate_spherical_momentum (draw : R * R * R) : momentum3 :=
  let '(x, y, z) := draw in
  let constant := 1 / sqrt (x ^ 2 + y ^ 2 + z ^ 2) in
  (constant * x, constant * y, constant * z).

Definition define_forward_scattering_term
    (n_neutrinos : Z) (curr_momentum neighbor_momentum : momentum3) : R :=
  let normalization_factor := 1 / (sqrt 2 * IZR n_neutrinos) in
  let couplings := 1 - inner curr_momentum neighbor_momentum in
  let normalized_couplings := normalization_factor * couplings in
  normalized_couplings.

Definition gen_couplings (n_neutrinos : Z) (curr_id neighbor_id : nat)
    (momentum : dict momentum3) : option R :=
  curr_momentum <- get momentum curr_id ;;
  neighbor_momentum <- get momentum neighbor_id ;;
  Some (define_forward_scattering_term n_neutrinos
          curr_momentum neighbor_momentum).

(** ** networkx.Graph *)

(** Every attribute dictionary of the program has the single key
    ['weight']: a node's is [Some w], or [None] when the node was created
    implicitly by [add_edge]; an edge's is its weight. *)
Record Graph : Type := mkGraph {
  g_node : dict (option R);
  g_adj : dict (dict R)
}.

Definition empty_graph : Graph := mkGraph [] [].

Definition nodes (g : Graph) : list nat := keys (g_node g).

Definition mem (x : nat) (l : list nat) : bool := existsb (Nat.eqb x) l.

(** [graph.add_node(n, weight=w)] *)
Definition add_node (g : Graph) (n : nat) (w : R) : Graph :=
  match get (g_node g) n with
  | None => mkGraph (set (g_node g) n (Some w)) (set (g_adj g) n [])
  | Some _ => mkGraph (set (g_node g) n (Some w)) (g_adj g)
  end.

(** The implicit node creation of [add_edge]. *)
Definition touch_node (g : Graph) (n : nat) : Graph :=
  match get (g_node g) n with
  | None => mkGraph (set (g_node g) n None) (set (g_adj g) n [])
  | Some _ => g
  end.

Definition row (adj : dict (dict R)) (u : nat) : dict R :=
  match get adj u with
  | Some nbrs => nbrs
  | None => []
  end.

(** [graph.add_edge(u, v, weight=w)] *)
Definition add_edge (g : Graph) (u v : nat) (w : R) : Graph :=
  let g := touch_node (touch_node g u) v in
  let adj := set (g_adj g) u (set (row (g_adj g) u) v w) in
  let adj := set adj v (set (row adj v) u w) in
  mkGraph (g_node g) adj.

(** [graph.edges(data=True)]: every node in turn, every neighbour of it
    that is not a node already visited. *)
Definition edges_step (st : list nat * list (nat * nat * R))
    (entry : nat * dict R) : list nat * list (nat * nat * R) :=
  let '(seen, out) := st in
  let '(n, nbrs) := entry in
  (n :: seen,
   out ++ map (fun nd => (n, fst nd, snd nd))
            (filter (fun nd => negb (mem (fst nd) seen)) nbrs)).

Definition edges (g : Graph) : list (nat * nat * R) :=
  snd (fold_left edges_step (g_adj g) ([], [])).

(** [graph[u][v]['weight']] *)
Definition edge_weight (g : Graph) (u v : nat) : option R :=
  nbrs <- get (g_adj g) u ;; get nbrs v.

(** ** Pauli term expansion *)

(** An operator string is a Python [str] over I, X, Y, Z; a term is the
    tuple [(pauli_string, weight)]. *)
Abbreviation pauli_string := (list ascii) (only parsing).
Abbreviation term := (list ascii * R)%type (only parsing).

(** [f'{s[:i]}{pauli}{s[i+1:]}'] *)
Definition overwrite (s : pauli_string) (i : nat) (pauli : ascii)
  : pauli_string :=
  firstn i s ++ pauli :: skipn (i + 1) s.

(** The body of the innermost loop, on the pair (buffer, hamiltonian). *)
Definition site_step (n1 n2 : nat) (weight : R) (pauli : ascii)
    (st : pauli_string * list term) (i : nat) : pauli_string * list term :=
  let '(s, hamiltonian) := st in
  let s := if Nat.eqb i n1 || Nat.eqb i n2 then overwrite s i pauli else s in
  (s, hamiltonian ++ [(s, weight)]).

Definition axis_step (len_g n1 n2 : nat) (weight : R)
    (st : pauli_string * list term) (pauli : ascii)
  : pauli_string * list term :=
  fold_left (site_step n1 n2 weight pauli) (seq 0 len_g) st.

Definition paulis : list ascii := ["X"; "Y"; "Z"]%char.

Definition edge_step (n : nat) (hamiltonian : list term)
    (e : nat * nat * R) : list term :=
  let '(n1, n2, weight) := e in
  snd (fold_left (axis_step n n1 n2 weight) paulis
         (repeat "I"%char n, hamiltonian)).

Definition nx_heisenberg_terms (g : Graph) : list term :=
  let n := length (nodes g) in
  fold_left (edge_step n) (edges g) [].

(** The terms one edge contributes. *)
Definition edge_terms (n : nat) (e : nat * nat * R) : list term :=
  edge_step n [] e.

(** ** The coupling graph *)

(** [range(n)] for a Python integer [n]. *)
Definition range (n : Z) : list nat := seq 0 (Z.to_nat n).

Definition enumerate {A} (l : list A) : list (nat * A) :=
  combine (seq 0 (length l)) l.

(** First loop of [generate_heisenberg_graph], on
    (graph, momentum, node_id). *)
Definition node_step (site_interaction : R) (draws : nat -> R * R * R)
    (st : Graph * dict momentum3 * nat) (k : nat)
  : Graph * dict momentum3 * nat :=
  let '(graph, momentum, node_id) := st in
  (add_node graph node_id site_interaction,
   set momentum node_id (generate_spherical_momentum (draws k)),
   (node_id + 1)%nat).

Definition neighbor_step (n_neutrinos : Z) (momentum : dict momentum3)
    (node : nat) (st : option Graph) (neighbor : nat) : option Graph :=
  graph <- st ;;
  coupling_terms <- gen_couplings n_neutrinos node neighbor momentum ;;
  Some (add_edge graph node neighbor coupling_terms).

Definition pair_step (n_neutrinos : Z) (momentum : dict momentum3)
    (st : option Graph) (entry : nat * nat) : option Graph :=
  let '(idx, node) := entry in
  graph <- st ;;
  fold_left (neighbor_step n_neutrinos momentum node)
    (skipn (idx + 1) (nodes graph)) (Some graph).

(** [add_edge] between existing nodes leaves the node table alone, so
    the outer loop runs over the nodes as they are when it starts. *)
Definition generate_heisenberg_graph (n_neutrinos : Z)
    (site_interaction : R) (draws : nat -> R * R * R) : option Graph :=
  let '(graph, momentum, _) :=
    fold_left (node_step site_interaction draws) (range n_neutrinos)
      (empty_graph, [], 0%nat) in
  fold_left (pair_step n_neutrinos momentum)
    (enumerate (nodes graph)) (Some graph).

(** Position of [x] in [l]. *)
Fixpoint index_of (l : list nat) (x : nat) : nat :=
  match l with
  | [] => 0%nat
  | y :: l' => if Nat.eqb y x then 0%nat else S (index_of l' x)
  end.

(** Modelled from the spec: [flatten_nx_graph] of
    [qca.utils.hamiltonian_utils] is not part of the script.  The spec
    describes it as the relabeling collaborator that makes the node
    identifiers the contiguous range 0..N-1 and changes nothing else:
    every node is renamed to its position in the node order. *)
Definition flatten_nx_graph (g : Graph) : Graph :=
  let new_id := index_of (nodes g) in
  mkGraph
    (map (fun e => (new_id (fst e), snd e)) (g_node g))
    (map (fun e => (new_id (fst e),
                    map (fun nd => (new_id (fst nd), snd nd)) (snd e)))
       (g_adj g)).

Definition generate_forward_scattering (n_neutrinos : Z)
    (site_interactions : R) (draws : nat -> R * R * R)
  : option (list term) :=
  graph <- generate_heisenberg_graph n_neutrinos site_interactions draws ;;
  let flat_graph := flatten_nx_graph graph in
  let scattering_hamiltonian := nx_heisenberg_terms flat_graph in
  Some scattering_hamiltonian.

(** ** The run name chosen by [main] *)

(** [str(z)] for a Python integer, as an f-string formats it. *)
Definition str_of_int (z : Z) : string :=
  DecimalString.NilZero.string_of_int (Z.to_int z).

(** Truth value of [args.trotter_steps]: [None] and 0 are false. *)
Definition truthy (num_steps : option Z) : bool :=
  match num_steps with
  | Some t => negb (Z.eqb t 0)
  | None => false
  end.

(** [f'{num_steps}_step_fs_{n_neutrinos}' if num_steps else
    f'estimated_fs_{n_neutrinos}'] *)
Definition hamiltonian_name (num_steps : option Z) (n_neutrinos : Z)
  : string :=
  match num_steps with
  | Some t =>
      if truthy num_steps
      then (str_of_int t ++ "_step_fs_" ++ str_of_int n_neutrinos)%string
      else ("estimated_fs_" ++ str_of_int n_neutrinos)%string
  | None => ("estimated_fs_" ++ str_of_int n_neutrinos)%string
  end.

(** ** Vocabulary of the statements *)

(** The momentum of particle [k] and the coupling of particles [a], [b]
    in a run whose variates are [draws]. *)
Definition momentum_of (draws : nat -> R * R * R) (k : nat) : momentum3 :=
  generate_spherical_momentum (draws k).

Definition coupling (n : Z) (draws : nat -> R * R * R) (a b : nat) : R :=
  define_forward_scattering_term n (momentum_of draws a) (momentum_of draws b).

(** A graph on the nodes [0..m-1], all of site weight [s], whose
    adjacency row of node [i] is [rw i]. *)
Definition table_graph (m : nat) (s : R) (rw : nat -> dict R) : Graph :=
  mkGraph (tab (fun _ => Some s) 0 m) (tab rw 0 m).

(** Row [i] once the outer loop has finished the nodes below [k]: the
    smaller neighbours handled so far, then (for a finished node) all
    the larger ones. *)
Definition complete_rows (m : nat) (W : nat -> nat -> R) (k i : nat) : dict R :=
  tab (fun j => W j i) 0 (Nat.min i k) ++
  (if Nat.ltb i k then tab (fun j => W i j) (S i) (m - S i) else []).

(** The edges of the complete graph in the order [edges] lists them. *)
Definition complete_edges (m : nat) (W : nat -> nat -> R)
  : list (nat * nat * R) :=
  flat_map (fun i => map (fun j => (i, j, W i j)) (seq (S i) (m - S i)))
    (seq 0 m).

(** An operator string is all identity; a term has such a string. *)
Definition is_identity (s : pauli_string) : bool :=
  forallb (Ascii.eqb "I"%char) s.

Definition identity_term (t : term) : bool := is_identity (fst t).

Definition pair_eq_dec (x y : nat * nat) : {x = y} + {x <> y}.
Proof. decide equality; apply Nat.eq_dec. Defined.

(** Site [p] is an endpoint of the edge [(n1, n2)]. *)
Definition hit (n1 n2 p : nat) : bool := Nat.eqb p n1 || Nat.eqb p n2.

(** The buffer of an axis pass writing [cur] over [prev] once the sites
    below [j] have been visited: endpoints below [j] read [cur], the
    other endpoints still [prev], every other site I. *)
Definition buffer (n n1 n2 : nat) (prev cur : ascii) (j : nat) : list ascii :=
  map (fun p => if hit n1 n2 p
                then (if Nat.ltb p j then cur else prev)
                else "I"%char)
    (seq 0 n).

(** The symbol written by pass number [k]; pass 0 is the initial fill. *)
Definition level (k : nat) : ascii := nth k ("I" :: paulis)%char "I"%char.

(** The two-body operator: [pauli] on the sites [n1] and [n2]. *)
Definition two_body (n n1 n2 : nat) (pauli : ascii) : list ascii :=
  map (fun p => if hit n1 n2 p then pauli else "I"%char) (seq 0 n).

Definition in_alphabet (c : ascii) : Prop :=
  c = "I"%char \/ c = "X"%char \/ c = "Y"%char \/ c = "Z"%char.

(** [c] occurs in [s]. *)
Fixpoint has_char (c : ascii) (s : string) : bool :=
  match s with
  | EmptyString => false
  | String a s' => Ascii.eqb a c || has_char c s'
  end.

(** The step count a run name stands for: 0 counts as not given. *)
Definition named_steps (num_steps : option Z) : option Z :=
  if truthy num_steps then num_steps else None.

(** How many terms of [ts] have the operator string [s]. *)
Definition multiplicity (s : list ascii) (ts : list (list ascii * R)) : nat :=
  length (filter (fun t => if list_eq_dec ascii_dec (fst t) s
                           then true else false) ts).

(** * Properties *)

(** ** Term expansion: what a loop appends *)

Section Expansion.

Variables (n1 n2 : nat) (weight : R).

Lemma site_fold_app (pauli : ascii) (l : list nat) :
  forall (s : pauli_string) (h : list term),
    fold_left (site_step n1 n2 weight pauli) l (s, h) =
    (fst (fold_left (site_step n1 n2 weight pauli) l (s, [])),
     h ++ snd (fold_left (site_step n1 n2 weight pauli) l (s, []))).
Proof.
  induction l as [|i l IH]; intros s h; simpl.
  - now rewrite app_nil_r.
  - rewrite IH.
    rewrite (IH _ [_]).
    simpl. now rewrite <- app_assoc.
Qed.

Lemma site_fold_length (pauli : ascii) (l : list nat) :
  forall (s : pauli_string) (h : list term),
    length (snd (fold_left (site_step n1 n2 weight pauli) l (s, h))) =
    (length h + length l)%nat.
Proof.
  induction l as [|i l IH]; intros s h; simpl.
  - lia.
  - rewrite IH, length_app. simpl. lia.
Qed.

Lemma axis_fold_app (len_g : nat) (ps : list ascii) :
  forall (s : pauli_string) (h : list term),
    fold_left (axis_step len_g n1 n2 weight) ps (s, h) =
    (fst (fold_left (axis_step len_g n1 n2 weight) ps (s, [])),
     h ++ snd (fold_left (axis_step len_g n1 n2 weight) ps (s, []))).
Proof.
  induction ps as [|p ps IH]; intros s h; simpl.
  - now rewrite app_nil_r.
  - assert (E : axis_step len_g n1 n2 weight (s, h) p =
                (fst (axis_step len_g n1 n2 weight (s, []) p),
                 h ++ snd (axis_step len_g n1 n2 weight (s, []) p)))
      by (unfold axis_step; apply site_fold_app).
    rewrite E.
    destruct (axis_step len_g n1 n2 weight (s, []) p) as [s' t'].
    simpl. rewrite IH, (IH s' t'). simpl. now rewrite app_assoc.
Qed.

Lemma axis_fold_length (len_g : nat) (ps : list ascii) :
  forall (s : pauli_string) (h : list term),
    length (snd (fold_left (axis_step len_g n1 n2 weight) ps (s, h))) =
    (length h + length ps * len_g)%nat.
Proof.
  induction ps as [|p ps IH]; intros s h; simpl.
  - lia.
  - unfold axis_step at 2.
    destruct (fold_left (site_step n1 n2 weight p) (seq 0 len_g) (s, h))
      as [s' h'] eqn:E.
    rewrite IH.
    assert (L := site_fold_length p (seq 0 len_g) s h).
    rewrite E in L. simpl in L. rewrite L, length_seq. lia.
Qed.

End Expansion.

Lemma edge_step_app (n : nat) (h : list term) (e : nat * nat * R) :
  edge_step n h e = h ++ edge_terms n e.
Proof.
  unfold edge_terms, edge_step. destruct e as [[a b] w].
  rewrite axis_fold_app. reflexivity.
Qed.

Lemma edge_step_length (n : nat) (h : list term) (e : nat * nat * R) :
  length (edge_step n h e) = (length h + 3 * n)%nat.
Proof.
  unfold edge_step. destruct e as [[a b] w].
  rewrite axis_fold_length. reflexivity.
Qed.

Lemma edge_fold_flat_map (n : nat) (es : list (nat * nat * R)) :
  forall h, fold_left (edge_step n) es h = h ++ flat_map (edge_terms n) es.
Proof.
  induction es as [|e es IH]; intros h; simpl.
  - now rewrite app_nil_r.
  - rewrite IH, edge_step_app. now rewrite <- app_assoc.
Qed.

Lemma nx_heisenberg_terms_flat_map (g : Graph) :
  nx_heisenberg_terms g = flat_map (edge_terms (length (nodes g))) (edges g).
Proof.
  unfold nx_heisenberg_terms. now rewrite edge_fold_flat_map.
Qed.

Lemma edge_fold_length (n : nat) (es : list (nat * nat * R)) :
  forall h,
    length (fold_left (edge_step n) es h) =
    (length h + 3 * n * length es)%nat.
Proof.
  induction es as [|e es IH]; intros h; simpl.
  - lia.
  - rewrite IH, edge_step_length. lia.
Qed.

(** C1. Whatever the graph, each edge adds exactly [3 * N] terms to the
    Hamiltonian built so far ([N] the number of nodes), and the returned
    Hamiltonian has [3 * N * edge_count] terms. *)
Theorem nx_heisenberg_terms_count (g : Graph) :
  let N := length (nodes g) in
  (forall h e, length (edge_step N h e) = (length h + 3 * N)%nat) /\
  length (nx_heisenberg_terms g) = (3 * N * length (edges g))%nat.
Proof.
  intros N. split.
  - intros h e. apply edge_step_length.
  - unfold nx_heisenberg_terms. fold N. now rewrite edge_fold_length.
Qed.

(** ** Dictionary facts *)

Section DictFacts.

Context {V : Type}.
Implicit Types (d : dict V) (f : nat -> V).

Lemma get_app d1 d2 k :
  get (d1 ++ d2) k =
  match get d1 k with Some v => Some v | None => get d2 k end.
Proof.
  induction d1 as [|[k' v'] d1 IH]; simpl; [reflexivity|].
  destruct (Nat.eqb k' k); [reflexivity|apply IH].
Qed.

Lemma set_fresh d k v : get d k = None -> set d k v = d ++ [(k, v)].
Proof.
  induction d as [|[k' v'] d IH]; simpl; [reflexivity|].
  destruct (Nat.eqb k' k); [discriminate|].
  intros H. now rewrite IH.
Qed.

Lemma get_absent d k : (forall e, In e d -> fst e <> k) -> get d k = None.
Proof.
  induction d as [|[k' v'] d IH]; simpl; intros H; [reflexivity|].
  destruct (Nat.eqb_spec k' k) as [E|_].
  - exfalso. apply (H (k', v')); auto.
  - apply IH. intros e He. apply H. now right.
Qed.

Lemma tab_S f a m : tab f a (S m) = tab f a m ++ [((a + m)%nat, f (a + m)%nat)].
Proof. unfold tab. now rewrite seq_S, map_app. Qed.

Lemma in_tab f a m e :
  In e (tab f a m) <-> (a <= fst e < a + m)%nat /\ snd e = f (fst e).
Proof.
  unfold tab. rewrite in_map_iff. split.
  - intros [i [<- Hi]]. apply in_seq in Hi. simpl. split; [lia|reflexivity].
  - intros [Hr Hv]. exists (fst e). split.
    + destruct e; simpl in *; now subst.
    + apply in_seq. lia.
Qed.

Lemma keys_tab f a m : keys (tab f a m) = seq a m.
Proof.
  unfold keys, tab. rewrite map_map. simpl. apply map_id.
Qed.

Lemma get_tab_out f a m k : (k < a \/ a + m <= k)%nat -> get (tab f a m) k = None.
Proof.
  intros H. apply get_absent. intros e He. apply in_tab in He. lia.
Qed.

Lemma get_tab_in f a m k : (a <= k < a + m)%nat -> get (tab f a m) k = Some (f k).
Proof.
  revert a. induction m as [|m IH]; intros a H; [lia|].
  unfold tab. simpl. destruct (Nat.eqb_spec a k) as [->|N]; [reflexivity|].
  apply IH. lia.
Qed.

Lemma tab_ext f g a m :
  (forall i, (a <= i < a + m)%nat -> f i = g i) -> tab f a m = tab g a m.
Proof.
  intros H. unfold tab. apply map_ext_in. intros i Hi.
  apply in_seq in Hi. now rewrite H.
Qed.

Lemma set_tab f a m k v :
  (a <= k < a + m)%nat ->
  set (tab f a m) k v = tab (fun i => if Nat.eqb i k then v else f i) a m.
Proof.
  revert a. induction m as [|m IH]; intros a H; [lia|].
  unfold tab. simpl. destruct (Nat.eqb_spec a k) as [->|N].
  - f_equal. apply map_ext_in. intros i Hi. apply in_seq in Hi.
    destruct (Nat.eqb_spec i k); [lia|reflexivity].
  - f_equal. apply IH. lia.
Qed.

End DictFacts.

Lemma mem_rev_seq (x k : nat) : mem x (rev (seq 0 k)) = Nat.ltb x k.
Proof.
  unfold mem. destruct (Nat.ltb_spec x k) as [H|H].
  - apply existsb_exists. exists x. split; [|apply Nat.eqb_refl].
    apply in_rev. rewrite rev_involutive. apply in_seq. lia.
  - destruct (existsb (Nat.eqb x) (rev (seq 0 k))) eqn:E; [|reflexivity].
    apply existsb_exists in E. destruct E as [y [Hy Hxy]].
    apply Nat.eqb_eq in Hxy. subst y.
    apply in_rev in Hy. apply in_seq in Hy. lia.
Qed.

Lemma index_of_seq (m : nat) :
  forall a i, (a <= i < a + m)%nat -> index_of (seq a m) i = (i - a)%nat.
Proof.
  induction m as [|m IH]; intros a i H; [lia|].
  simpl. destruct (Nat.eqb_spec a i) as [->|N]; [lia|].
  rewrite IH by lia. lia.
Qed.

Lemma enumerate_seq (m : nat) :
  enumerate (seq 0 m) = map (fun i => (i, i)) (seq 0 m).
Proof.
  unfold enumerate. rewrite length_seq.
  generalize 0%nat. induction m as [|m IH]; intros a; simpl; [reflexivity|].
  now rewrite IH.
Qed.

(** ** The graph that [generate_heisenberg_graph] builds *)

Section Build.

Variables (n : Z) (s : R) (draws : nat -> R * R * R).

Let m : nat := Z.to_nat n.
Let mom : dict momentum3 := tab (momentum_of draws) 0 m.
Let W : nat -> nat -> R := coupling n draws.

Lemma node_loop (k : nat) :
  fold_left (node_step s draws) (seq 0 k) (empty_graph, [], 0%nat) =
  (table_graph k s (fun _ => []), tab (momentum_of draws) 0 k, k).
Proof.
  induction k as [|k IH]; [reflexivity|].
  rewrite seq_S, fold_left_app, IH. simpl.
  unfold add_node, table_graph. simpl g_node. simpl g_adj.
  rewrite get_tab_out by lia.
  rewrite !set_fresh by (apply get_tab_out; lia).
  rewrite !tab_S. simpl. unfold momentum_of.
  now rewrite Nat.add_1_r.
Qed.

Lemma gen_couplings_mom (a b : nat) :
  (a < m)%nat -> (b < m)%nat -> gen_couplings n a b mom = Some (W a b).
Proof.
  intros Ha Hb. unfold gen_couplings, mom.
  rewrite !get_tab_in by lia. reflexivity.
Qed.

Lemma add_edge_table (rw : nat -> dict R) (u v : nat) (w : R) :
  (u < m)%nat -> (v < m)%nat -> u <> v ->
  add_edge (table_graph m s rw) u v w =
  table_graph m s
    (fun i => if Nat.eqb i v then set (rw v) u w
              else if Nat.eqb i u then set (rw u) v w else rw i).
Proof.
  intros Hu Hv Huv. unfold add_edge, touch_node, table_graph. simpl.
  rewrite (get_tab_in (fun _ => Some s)) by lia. simpl.
  rewrite (get_tab_in (fun _ => Some s)) by lia. simpl.
  f_equal. unfold row.
  rewrite (get_tab_in rw) by lia.
  rewrite set_tab by lia.
  rewrite get_tab_in by lia.
  rewrite set_tab by lia.
  apply tab_ext. intros i _.
  destruct (Nat.eqb_spec v u) as [E|_]; [congruence|reflexivity].
Qed.

Lemma neighbor_loop (a : nat) :
  forall (c b0 : nat) (rw : nat -> dict R),
    (a < b0)%nat -> (b0 + c <= m)%nat ->
    (forall j, (b0 <= j)%nat -> get (rw a) j = None) ->
    (forall i, (b0 <= i)%nat -> get (rw i) a = None) ->
    exists rw',
      fold_left (neighbor_step n mom a) (seq b0 c)
        (Some (table_graph m s rw)) = Some (table_graph m s rw') /\
      rw' a = rw a ++ tab (fun j => W a j) b0 c /\
      (forall i, (b0 <= i < b0 + c)%nat -> rw' i = rw i ++ [(a, W a i)]) /\
      (forall i, i <> a -> ~ (b0 <= i < b0 + c)%nat -> rw' i = rw i).
Proof.
  induction c as [|c IH]; intros b0 rw Hab Hm Hrow Hcol.
  - exists rw. simpl. rewrite app_nil_r. repeat split; auto. intros; lia.
  - simpl. rewrite gen_couplings_mom by lia. simpl.
    rewrite add_edge_table by lia.
    set (rw1 := fun i : nat => _).
    assert (H1a : rw1 a = rw a ++ [(b0, W a b0)]).
    { unfold rw1. destruct (Nat.eqb_spec a b0); [lia|].
      rewrite Nat.eqb_refl. apply set_fresh, Hrow. lia. }
    assert (H1b : rw1 b0 = rw b0 ++ [(a, W a b0)]).
    { unfold rw1. rewrite Nat.eqb_refl. apply set_fresh, Hcol. lia. }
    assert (H1o : forall i, i <> a -> i <> b0 -> rw1 i = rw i).
    { intros i Hia Hib. unfold rw1.
      destruct (Nat.eqb_spec i b0); [lia|].
      destruct (Nat.eqb_spec i a); [lia|reflexivity]. }
    clearbody rw1.
    destruct (IH (S b0) rw1) as [rw' [Hf [Ha [Hin Hout]]]]; try lia.
    + intros j Hj. rewrite H1a, get_app, Hrow by lia. simpl.
      destruct (Nat.eqb_spec b0 j); [lia|reflexivity].
    + intros i Hi. rewrite H1o by lia. apply Hcol. lia.
    + exists rw'. split; [exact Hf|]. split; [|split].
      * rewrite Ha, H1a, <- app_assoc. reflexivity.
      * intros i Hi. destruct (Nat.eq_dec i b0) as [->|Ne].
        -- rewrite Hout by lia. exact H1b.
        -- rewrite Hin by lia. now rewrite H1o by lia.
      * intros i Hia Hi. rewrite Hout by lia. apply H1o; lia.
Qed.

Lemma pair_loop (k : nat) :
  (k <= m)%nat ->
  fold_left (pair_step n mom) (map (fun i => (i, i)) (seq 0 k))
    (Some (table_graph m s (fun _ => []))) =
  Some (table_graph m s (complete_rows m W k)).
Proof.
  induction k as [|k IH]; intros Hk.
  - simpl. f_equal. unfold table_graph. f_equal.
    apply tab_ext. intros i _. unfold complete_rows.
    now rewrite Nat.min_0_r.
  - rewrite seq_S, map_app, fold_left_app, IH by lia. simpl.
    unfold nodes, table_graph at 1. simpl g_node.
    rewrite keys_tab, skipn_seq. simpl Nat.add.
    destruct (neighbor_loop k (m - (k + 1))%nat (k + 1)%nat
                (complete_rows m W k))
      as [rw' [Hf [Ha [Hin Hout]]]]; try lia.
    + intros j Hj. unfold complete_rows.
      rewrite Nat.ltb_irrefl, app_nil_r. apply get_tab_out. lia.
    + intros i Hi. unfold complete_rows.
      destruct (Nat.ltb_spec i k); [lia|].
      rewrite app_nil_r. apply get_tab_out. lia.
    + fold (table_graph m s (complete_rows m W k)).
      rewrite Hf. f_equal. unfold table_graph. f_equal.
      apply tab_ext. intros i Hi.
      destruct (Nat.lt_trichotomy i k) as [Lt|[->|Gt]].
      * rewrite Hout by lia. unfold complete_rows.
        rewrite !Nat.min_l by lia.
        destruct (Nat.ltb_spec i k); [|lia].
        destruct (Nat.ltb_spec i (S k)); [|lia]. reflexivity.
      * rewrite Ha. unfold complete_rows.
        rewrite Nat.ltb_irrefl, app_nil_r.
        rewrite Nat.min_id, Nat.min_l by lia.
        destruct (Nat.ltb_spec k (S k)); [|lia].
        now rewrite Nat.add_1_r.
      * rewrite Hin by lia. unfold complete_rows.
        destruct (Nat.ltb_spec i k); [lia|].
        destruct (Nat.ltb_spec i (S k)); [lia|].
        rewrite !app_nil_r, !Nat.min_r by lia.
        now rewrite tab_S.
Qed.

Lemma generate_heisenberg_graph_closed :
  generate_heisenberg_graph n s draws =
  Some (table_graph m s (complete_rows m W m)).
Proof.
  unfold generate_heisenberg_graph, range. fold m.
  rewrite node_loop.
  unfold nodes, table_graph at 1. simpl g_node.
  rewrite keys_tab, enumerate_seq.
  apply pair_loop. lia.
Qed.

End Build.

(** ** Its edges, and the pipeline in closed form *)

Lemma complete_rows_keys (m : nat) (W : nat -> nat -> R) (i : nat) e :
  (i < m)%nat -> In e (complete_rows m W m i) -> (fst e < m)%nat /\ fst e <> i.
Proof.
  intros Hi He. unfold complete_rows in He.
  apply in_app_or in He. destruct He as [He|He].
  - apply in_tab in He. lia.
  - destruct (Nat.ltb i m); [|contradiction].
    apply in_tab in He. lia.
Qed.

Lemma edges_scan (m : nat) (W : nat -> nat -> R) (k : nat) :
  (k <= m)%nat ->
  fold_left edges_step (tab (complete_rows m W m) 0 k) ([], []) =
  (rev (seq 0 k),
   flat_map (fun i => map (fun j => (i, j, W i j)) (seq (S i) (m - S i)))
     (seq 0 k)).
Proof.
  induction k as [|k IH]; intros Hk; [reflexivity|].
  rewrite tab_S, fold_left_app, IH by lia.
  rewrite seq_S, rev_app_distr, flat_map_app. simpl.
  f_equal. f_equal. rewrite app_nil_r.
  unfold complete_rows. rewrite Nat.min_l by lia.
  destruct (Nat.ltb_spec k m); [|lia].
  rewrite filter_app.
  rewrite (filter_ext_in _ (fun _ => false)), filter_false.
  - rewrite (filter_ext_in _ (fun _ => true)), filter_true.
    + simpl. unfold tab. now rewrite map_map.
    + intros e He. apply in_tab in He. rewrite mem_rev_seq.
      destruct (Nat.ltb_spec (fst e) k); [lia|reflexivity].
  - intros e He. apply in_tab in He. rewrite mem_rev_seq.
    destruct (Nat.ltb_spec (fst e) k); [reflexivity|lia].
Qed.

Lemma edges_table_complete (m : nat) (s : R) (W : nat -> nat -> R) :
  edges (table_graph m s (complete_rows m W m)) = complete_edges m W.
Proof.
  unfold edges, table_graph. simpl g_adj.
  now rewrite edges_scan by lia.
Qed.

Lemma flatten_table (m : nat) (s : R) (rw : nat -> dict R) :
  (forall i e, (i < m)%nat -> In e (rw i) -> (fst e < m)%nat) ->
  flatten_nx_graph (table_graph m s rw) = table_graph m s rw.
Proof.
  intros Hk. unfold flatten_nx_graph, nodes, table_graph. simpl.
  rewrite keys_tab. f_equal.
  - unfold tab. rewrite map_map. apply map_ext_in.
    intros i Hi. apply in_seq in Hi. simpl.
    rewrite index_of_seq by lia. now rewrite Nat.sub_0_r.
  - unfold tab. rewrite map_map. apply map_ext_in.
    intros i Hi. apply in_seq in Hi. simpl.
    rewrite index_of_seq by lia. rewrite Nat.sub_0_r. apply f_equal.
    rewrite <- (map_id (rw i)) at 2. apply map_ext_in.
    intros [v d] Hv. simpl.
    assert (Hlt := Hk i (v, d) ltac:(lia) Hv). simpl in Hlt.
    rewrite index_of_seq by lia. now rewrite Nat.sub_0_r.
Qed.

Lemma flattened_graph_closed (n : Z) (s : R) (draws : nat -> R * R * R) :
  option_map flatten_nx_graph (generate_heisenberg_graph n s draws) =
  Some (table_graph (Z.to_nat n) s
          (complete_rows (Z.to_nat n) (coupling n draws) (Z.to_nat n))).
Proof.
  rewrite generate_heisenberg_graph_closed. simpl. f_equal.
  apply flatten_table. intros i e Hi He.
  now apply complete_rows_keys in He.
Qed.

Lemma generate_forward_scattering_closed
    (n : Z) (s : R) (draws : nat -> R * R * R) :
  generate_forward_scattering n s draws =
  Some (flat_map (edge_terms (Z.to_nat n))
          (complete_edges (Z.to_nat n) (coupling n draws))).
Proof.
  unfold generate_forward_scattering.
  assert (H := flattened_graph_closed n s draws).
  destruct (generate_heisenberg_graph n s draws) as [g|]; [|discriminate].
  unfold option_map in H.
  assert (H' : flatten_nx_graph g =
               table_graph (Z.to_nat n) s
                 (complete_rows (Z.to_nat n) (coupling n draws) (Z.to_nat n)))
    by congruence.
  unfold bind. rewrite H'.
  rewrite nx_heisenberg_terms_flat_map, edges_table_complete.
  unfold nodes, table_graph. simpl g_node.
  now rewrite keys_tab, length_seq.
Qed.

(** ** Couplings and momenta *)

Lemma inner_comm (p q : momentum3) : inner p q = inner q p.
Proof.
  destruct p as [[px py] pz], q as [[qx qy] qz]. unfold inner. ring.
Qed.

(** C5. The coupling weight does not depend on the order of the two
    particles: exchanging the two momenta of
    [define_forward_scattering_term], or the two identifiers of
    [gen_couplings] under any momentum assignment, gives the same
    result. *)
Theorem coupling_weight_symmetric :
  (forall (n_neutrinos : Z) (p q : momentum3),
      define_forward_scattering_term n_neutrinos p q =
      define_forward_scattering_term n_neutrinos q p) /\
  (forall (n_neutrinos : Z) (a b : nat) (momentum : dict momentum3),
      gen_couplings n_neutrinos a b momentum =
      gen_couplings n_neutrinos b a momentum).
Proof.
  assert (S : forall n p q, define_forward_scattering_term n p q =
                            define_forward_scattering_term n q p).
  { intros n p q. unfold define_forward_scattering_term.
    now rewrite inner_comm. }
  split; [exact S|].
  intros n a b momentum. unfold gen_couplings.
  destruct (get momentum a) as [p|], (get momentum b) as [q|]; simpl;
    try reflexivity.
  now rewrite S.
Qed.

Lemma sum_squares_nonneg (x y z : R) : 0 <= x ^ 2 + y ^ 2 + z ^ 2.
Proof. nra. Qed.

Lemma norm_100 : norm (1, 0, 0) <> 0.
Proof. unfold norm. apply Rgt_not_eq, sqrt_lt_R0. lra. Qed.

Lemma spherical_100_unit : norm (generate_spherical_momentum (1, 0, 0)) = 1.
Proof.
  unfold norm, generate_spherical_momentum.
  replace (1 ^ 2 + 0 ^ 2 + 0 ^ 2) with 1 by ring. rewrite sqrt_1.
  replace ((1 / 1 * 1) ^ 2 + (1 / 1 * 0) ^ 2 + (1 / 1 * 0) ^ 2) with 1
    by field.
  apply sqrt_1.
Qed.

(** C6. When the three variates have a nonzero Euclidean norm, the
    momentum that [generate_spherical_momentum] returns has Euclidean
    norm 1 (in real arithmetic). *)
Theorem generate_spherical_momentum_unit (x y z : R) :
  norm (x, y, z) <> 0 ->
  norm (generate_spherical_momentum (x, y, z)) = 1.
Proof.
  unfold norm, generate_spherical_momentum.
  set (q := x ^ 2 + y ^ 2 + z ^ 2). set (r := sqrt q). intros Hr.
  assert (Hq : r * r = q) by (apply sqrt_sqrt, sum_squares_nonneg).
  replace ((1 / r * x) ^ 2 + (1 / r * y) ^ 2 + (1 / r * z) ^ 2)
    with (q / (r * r)).
  - rewrite Hq. unfold Rdiv. rewrite Rinv_r; [apply sqrt_1|].
    intros Z. rewrite Z in Hq. apply Hr.
    destruct (Rmult_integral _ _ Hq); assumption.
  - unfold q. field. exact Hr.
Qed.

Lemma generate_spherical_momentum_unit_witness :
  norm (generate_spherical_momentum (1, 0, 0)) = 1.
Proof.
  apply (generate_spherical_momentum_unit 1 0 0). exact norm_100.
Defined.

Lemma unit_norm_squares (p : momentum3) :
  norm p = 1 -> inner p p = 1.
Proof.
  destruct p as [[px py] pz]. unfold norm, inner. intros H.
  assert (Hq := sqrt_sqrt _ (sum_squares_nonneg px py pz)).
  rewrite H in Hq. lra.
Qed.

Lemma coupling_bounds (n : Z) (p q : momentum3) :
  (0 < n)%Z -> norm p = 1 -> norm q = 1 ->
  0 <= define_forward_scattering_term n p q <= sqrt 2 / IZR n.
Proof.
  intros Hn Hp Hq.
  apply unit_norm_squares in Hp. apply unit_norm_squares in Hq.
  unfold define_forward_scattering_term.
  destruct p as [[px py] pz], q as [[qx qy] qz]. unfold inner in *.
  set (c := 1 - (px * qx + py * qy + pz * qz)).
  assert (Hc : 0 <= c <= 2).
  { unfold c. split.
    - assert (H := sum_squares_nonneg (px - qx) (py - qy) (pz - qz)). lra.
    - assert (H := sum_squares_nonneg (px + qx) (py + qy) (pz + qz)). lra. }
  assert (Hs : 0 < sqrt 2) by (apply sqrt_lt_R0; lra).
  assert (Hss : sqrt 2 * sqrt 2 = 2) by (apply sqrt_sqrt; lra).
  assert (Hz : 0 < IZR n) by now apply IZR_lt.
  assert (Hf : 0 < 1 / (sqrt 2 * IZR n)).
  { apply Rdiv_lt_0_compat; [lra|]. now apply Rmult_lt_0_compat. }
  split.
  - apply Rmult_le_pos; lra.
  - replace (sqrt 2 / IZR n) with (1 / (sqrt 2 * IZR n) * 2).
    + apply Rmult_le_compat_l; lra.
    + replace (1 / (sqrt 2 * IZR n) * 2)
        with (1 / (sqrt 2 * IZR n) * (sqrt 2 * sqrt 2)) by now rewrite Hss.
      field. split; lra.
Qed.

(** ** The pipeline *)

(** C7. With one particle, and with any non-positive particle count,
    [generate_forward_scattering] raises nothing and returns the empty
    term sequence. *)
Theorem generate_forward_scattering_degenerate
    (n : Z) (s : R) (draws : nat -> R * R * R) :
  (n <= 1)%Z -> generate_forward_scattering n s draws = Some [].
Proof.
  intros Hn. rewrite generate_forward_scattering_closed.
  unfold complete_edges.
  destruct (Z.to_nat n) as [|[|k]] eqn:E; [reflexivity|reflexivity|lia].
Qed.

Lemma generate_forward_scattering_degenerate_witness :
  generate_forward_scattering 1 0 (fun _ => (1, 0, 0)) = Some [] /\
  generate_forward_scattering (-3) 0 (fun _ => (1, 0, 0)) = Some [].
Proof.
  split; apply generate_forward_scattering_degenerate; lia.
Defined.

Lemma nx_heisenberg_terms_node_blind (g1 g2 : Graph) :
  g_adj g1 = g_adj g2 -> length (g_node g1) = length (g_node g2) ->
  nx_heisenberg_terms g1 = nx_heisenberg_terms g2.
Proof.
  intros Ha Hn. unfold nx_heisenberg_terms, edges, nodes, keys.
  now rewrite !length_map, Ha, Hn.
Qed.

(** C8. Two runs with the same particle count and the same sampled
    variates that differ only in the site interaction return the same
    Hamiltonian: the site weight is what every node of the built graph
    carries, the two graphs differ in nothing else, and the expansion
    reads the adjacency and the number of nodes only. *)
Theorem site_interaction_noninterference
    (n : Z) (s1 s2 : R) (draws : nat -> R * R * R) :
  generate_forward_scattering n s1 draws =
    generate_forward_scattering n s2 draws /\
  (forall g1 g2,
     g_adj g1 = g_adj g2 -> length (g_node g1) = length (g_node g2) ->
     nx_heisenberg_terms g1 = nx_heisenberg_terms g2) /\
  exists g1 g2,
    generate_heisenberg_graph n s1 draws = Some g1 /\
    generate_heisenberg_graph n s2 draws = Some g2 /\
    g_adj g1 = g_adj g2 /\ nodes g1 = nodes g2 /\
    (forall k a, In (k, a) (g_node g1) -> a = Some s1) /\
    (forall k a, In (k, a) (g_node g2) -> a = Some s2).
Proof.
  split; [now rewrite !generate_forward_scattering_closed|].
  split; [exact nx_heisenberg_terms_node_blind|].
  do 2 eexists.
  split; [apply generate_heisenberg_graph_closed|].
  split; [apply generate_heisenberg_graph_closed|].
  unfold nodes, table_graph. simpl g_node. simpl g_adj.
  rewrite !keys_tab.
  split; [reflexivity|]. split; [reflexivity|].
  split; intros k a H; apply in_tab in H; simpl in H; tauto.
Qed.

(** C2. Two particles, site interaction 0: the graph has the single
    edge (0, 1) and the expansion is exactly six terms, the buffer
    reading XX, YY and ZZ at the end of the three axis passes and XI,
    YX, ZY in between, all with the coupling weight of the two
    momenta. *)
Theorem two_particle_expansion (draws : nat -> R * R * R) :
  let w := define_forward_scattering_term 2
             (generate_spherical_momentum (draws 0%nat))
             (generate_spherical_momentum (draws 1%nat)) in
  let six :=
    [(list_ascii_of_string "XI", w); (list_ascii_of_string "XX", w);
     (list_ascii_of_string "YX", w); (list_ascii_of_string "YY", w);
     (list_ascii_of_string "ZY", w); (list_ascii_of_string "ZZ", w)] in
  option_map edges (generate_heisenberg_graph 2 0 draws) =
    Some [(0%nat, 1%nat, w)] /\
  option_map nx_heisenberg_terms (generate_heisenberg_graph 2 0 draws) =
    Some six /\
  generate_forward_scattering 2 0 draws = Some six.
Proof.
  intros w six. split; [|split].
  - rewrite generate_heisenberg_graph_closed. unfold option_map.
    rewrite edges_table_complete. reflexivity.
  - rewrite generate_heisenberg_graph_closed. unfold option_map.
    rewrite nx_heisenberg_terms_flat_map, edges_table_complete. reflexivity.
  - rewrite generate_forward_scattering_closed. reflexivity.
Qed.

(** ** The complete graph *)

Lemma in_complete_edges (m : nat) (W : nat -> nat -> R) (a b : nat) (w : R) :
  In (a, b, w) (complete_edges m W) <-> (a < b < m)%nat /\ w = W a b.
Proof.
  unfold complete_edges. rewrite in_flat_map. split.
  - intros [i [Hi Hin]]. apply in_map_iff in Hin.
    destruct Hin as [j [Hj Hjin]]. apply in_seq in Hjin.
    injection Hj as -> -> <-. split; [lia|reflexivity].
  - intros [Hab ->]. exists a. split; [apply in_seq; lia|].
    apply in_map_iff. exists b. split; [reflexivity|apply in_seq; lia].
Qed.

Lemma complete_edges_scan_length (m : nat) (W : nat -> nat -> R) (k : nat) :
  (k <= m)%nat ->
  (2 * length (flat_map
                 (fun i => map (fun j => (i, j, W i j)) (seq (S i) (m - S i)))
                 (seq 0 k)) + k * (k + 1) = 2 * k * m)%nat.
Proof.
  induction k as [|k IH]; intros Hk; [reflexivity|].
  rewrite seq_S, flat_map_app, length_app. simpl flat_map.
  rewrite app_nil_r, length_map, length_seq.
  specialize (IH ltac:(lia)). nia.
Qed.

Lemma complete_edges_length (m : nat) (W : nat -> nat -> R) :
  (2 * length (complete_edges m W) = m * (m - 1))%nat.
Proof.
  assert (H := complete_edges_scan_length m W m (Nat.le_refl m)).
  fold (complete_edges m W) in H. nia.
Qed.

Lemma complete_edges_NoDup (m : nat) (W : nat -> nat -> R) :
  NoDup (map fst (complete_edges m W)).
Proof.
  unfold complete_edges. generalize (seq_NoDup m 0).
  induction (seq 0 m) as [|i l IH]; intros Hl; simpl; [constructor|].
  rewrite map_app. apply NoDup_cons_iff in Hl. destruct Hl as [Hi Hl].
  apply NoDup_app.
  - rewrite map_map. simpl.
    apply Injective_map_NoDup; [|apply seq_NoDup].
    intros x y E. now injection E.
  - now apply IH.
  - intros [a b] Ha Hb. rewrite map_map in Ha. simpl in Ha.
    apply in_map_iff in Ha. destruct Ha as [j [Ej _]]. injection Ej as <- _.
    apply in_map_iff in Hb. destruct Hb as [[[a' b'] w] [E Hin]].
    simpl in E. injection E as -> ->.
    apply in_flat_map in Hin. destruct Hin as [i' [Hi' Hin]].
    apply in_map_iff in Hin. destruct Hin as [j' [Ej' _]].
    injection Ej' as -> _ _. contradiction.
Qed.

Lemma edge_weight_complete (m : nat) (s : R) (W : nat -> nat -> R) (i j : nat) :
  (i < m)%nat -> (j < m)%nat -> i <> j ->
  edge_weight (table_graph m s (complete_rows m W m)) i j =
  Some (if Nat.ltb i j then W i j else W j i).
Proof.
  intros Hi Hj Hij. unfold edge_weight, table_graph. simpl g_adj.
  rewrite get_tab_in by lia. simpl. unfold complete_rows.
  rewrite Nat.min_l by lia.
  destruct (Nat.ltb_spec i m); [|lia].
  rewrite get_app.
  destruct (Nat.ltb_spec i j).
  - rewrite get_tab_out by lia. apply get_tab_in. lia.
  - now rewrite get_tab_in by lia.
Qed.


(** C4. For a positive particle count [n] the builder returns a graph
    whose nodes are 0, 1, ..., n-1 in this order and which has exactly
    n*(n-1)/2 edges: every edge joins two distinct nodes, and every
    unordered pair of distinct nodes is joined by exactly one edge. *)
Theorem generate_heisenberg_graph_complete
    (n : Z) (site_interaction : R) (draws : nat -> R * R * R) :
  (0 < n)%Z ->
  exists g,
    generate_heisenberg_graph n site_interaction draws = Some g /\
    nodes g = seq 0 (Z.to_nat n) /\
    length (nodes g) = Z.to_nat n /\
    Z.of_nat (length (edges g)) = (n * (n - 1) / 2)%Z /\
    (forall a b w, In (a, b, w) (edges g) -> (a < b < Z.to_nat n)%nat) /\
    (forall i j, (i < j < Z.to_nat n)%nat ->
       count_occ pair_eq_dec (map fst (edges g)) (i, j) = 1%nat /\
       count_occ pair_eq_dec (map fst (edges g)) (j, i) = 0%nat) /\
    (forall i j, (i < Z.to_nat n)%nat -> (j < Z.to_nat n)%nat -> i <> j ->
       edge_weight g i j <> None /\ edge_weight g i j = edge_weight g j i).
Proof.
  intros Hn. eexists. split; [apply generate_heisenberg_graph_closed|].
  rewrite edges_table_complete.
  set (m := Z.to_nat n). set (W := coupling n draws).
  assert (Hnodes : nodes (table_graph m site_interaction (complete_rows m W m))
                   = seq 0 m).
  { unfold nodes, table_graph. simpl g_node. apply keys_tab. }
  rewrite Hnodes, length_seq.
  split; [reflexivity|]. split; [reflexivity|]. split; [|split; [|split]].
  - assert (H := complete_edges_length m W).
    apply Z.div_unique_exact; [lia|].
    replace n with (Z.of_nat m) by (unfold m; lia).
    apply (f_equal Z.of_nat) in H.
    rewrite !Nat2Z.inj_mul, Nat2Z.inj_sub in H by (unfold m; lia).
    simpl Z.of_nat in H. lia.
  - intros a b w H. apply in_complete_edges in H. tauto.
  - intros i j Hij. split.
    + apply NoDup_count_occ'; [apply complete_edges_NoDup|].
      apply in_map_iff. exists (i, j, W i j). split; [reflexivity|].
      apply in_complete_edges. split; [lia|reflexivity].
    + apply count_occ_not_In. intros H. apply in_map_iff in H.
      destruct H as [[[a b] w] [E H]]. simpl in E. injection E as -> ->.
      apply in_complete_edges in H. lia.
  - intros i j Hi Hj Hij. rewrite !edge_weight_complete by lia.
    split; [discriminate|].
    destruct (Nat.ltb_spec i j), (Nat.ltb_spec j i); try lia; reflexivity.
Qed.

Lemma generate_heisenberg_graph_complete_witness :
  exists g,
    generate_heisenberg_graph 3 0 (fun _ => (1, 0, 0)) = Some g /\
    nodes g = [0; 1; 2]%nat /\
    Z.of_nat (length (edges g)) = 3%Z.
Proof.
  destruct (generate_heisenberg_graph_complete 3 0 (fun _ => (1, 0, 0)))
    as [g [Hg [Hn [_ [He _]]]]]; [lia|].
  exists g. split; [exact Hg|]. split; [exact Hn|exact He].
Defined.

(** C3. In the graph the builder returns, the weight attached to any two
    distinct particles [i] and [j] (looked up in either order) is
    [(1 / (sqrt 2 * n)) * (1 - momentum_i . momentum_j)]. *)
Theorem edge_weight_formula
    (n : Z) (site_interaction : R) (draws : nat -> R * R * R) (i j : nat) :
  (i < Z.to_nat n)%nat -> (j < Z.to_nat n)%nat -> i <> j ->
  exists g,
    generate_heisenberg_graph n site_interaction draws = Some g /\
    edge_weight g i j =
      Some (1 / (sqrt 2 * IZR n) *
            (1 - inner (momentum_of draws i) (momentum_of draws j))) /\
    (forall a b w, In (a, b, w) (edges g) ->
       w = 1 / (sqrt 2 * IZR n) *
           (1 - inner (momentum_of draws a) (momentum_of draws b))).
Proof.
  intros Hi Hj Hij. eexists.
  split; [apply generate_heisenberg_graph_closed|]. split.
  - rewrite edge_weight_complete by lia. f_equal.
    unfold coupling, define_forward_scattering_term.
    destruct (Nat.ltb i j); [reflexivity|]. now rewrite inner_comm.
  - rewrite edges_table_complete. intros a b w H.
    apply in_complete_edges in H. destruct H as [_ ->]. reflexivity.
Qed.

Lemma edge_weight_formula_witness :
  exists g,
    generate_heisenberg_graph 3 0 (fun _ => (1, 0, 0)) = Some g /\
    edge_weight g 2 0 =
      Some (1 / (sqrt 2 * 3) *
            (1 - inner (momentum_of (fun _ => (1, 0, 0)) 2)
                   (momentum_of (fun _ => (1, 0, 0)) 0))).
Proof.
  destruct (edge_weight_formula 3 0 (fun _ => (1, 0, 0)) 2 0)
    as [g [Hg [Hw _]]]; [simpl; lia|simpl; lia|discriminate|].
  exists g. split; [exact Hg|exact Hw].
Defined.

(** C10. In real arithmetic, when the momenta have unit norm and the
    particle count [n] is positive, every coupling weight, and so the
    weight of every edge of the graph, lies in [[0, sqrt 2 / n]]. *)
Theorem coupling_weight_range
    (n : Z) (site_interaction : R) (draws : nat -> R * R * R) :
  (0 < n)%Z ->
  (forall k, (k < Z.to_nat n)%nat -> norm (momentum_of draws k) = 1) ->
  (forall a b, (a < Z.to_nat n)%nat -> (b < Z.to_nat n)%nat ->
     0 <= define_forward_scattering_term n
            (momentum_of draws a) (momentum_of draws b) <= sqrt 2 / IZR n) /\
  exists g,
    generate_heisenberg_graph n site_interaction draws = Some g /\
    forall a b w, In (a, b, w) (edges g) -> 0 <= w <= sqrt 2 / IZR n.
Proof.
  intros Hn Hunit.
  assert (Hb : forall a b, (a < Z.to_nat n)%nat -> (b < Z.to_nat n)%nat ->
     0 <= define_forward_scattering_term n
            (momentum_of draws a) (momentum_of draws b) <= sqrt 2 / IZR n).
  { intros a b Ha Hb. apply coupling_bounds; auto. }
  split; [exact Hb|].
  eexists. split; [apply generate_heisenberg_graph_closed|].
  rewrite edges_table_complete. intros a b w H.
  apply in_complete_edges in H. destruct H as [Hab ->].
  apply Hb; lia.
Qed.

Lemma coupling_weight_range_witness :
  exists g,
    generate_heisenberg_graph 2 0 (fun _ => (1, 0, 0)) = Some g /\
    forall a b w, In (a, b, w) (edges g) -> 0 <= w <= sqrt 2 / 2.
Proof.
  destruct (coupling_weight_range 2 0 (fun _ => (1, 0, 0))) as [_ H].
  - lia.
  - intros k _. exact spherical_100_unit.
  - exact H.
Defined.

(** ** All-identity terms *)

Lemma is_identity_repeat (n : nat) : is_identity (repeat "I"%char n) = true.
Proof. induction n as [|n IH]; [reflexivity|exact IH]. Qed.

Lemma is_identity_overwrite (s : pauli_string) (i : nat) (pauli : ascii) :
  pauli <> "I"%char -> is_identity (overwrite s i pauli) = false.
Proof.
  intros Hp. unfold is_identity, overwrite. rewrite forallb_app.
  cbn [forallb].
  destruct (Ascii.eqb_spec "I"%char pauli) as [E|_]; [now elim Hp|].
  apply andb_false_r.
Qed.

Section Identity.

Variables (n1 n2 : nat) (weight : R).

Lemma site_fold_miss (pauli : ascii) (l : list nat) :
  (forall i, In i l -> i <> n1 /\ i <> n2) ->
  forall s h,
    fold_left (site_step n1 n2 weight pauli) l (s, h) =
    (s, h ++ repeat (s, weight) (length l)).
Proof.
  induction l as [|i l IH]; intros Hl s h; simpl.
  - now rewrite app_nil_r.
  - destruct (Hl i (or_introl eq_refl)) as [H1 H2].
    destruct (Nat.eqb_spec i n1); [contradiction|].
    destruct (Nat.eqb_spec i n2); [contradiction|]. simpl.
    rewrite IH by (intros j Hj; apply Hl; now right).
    now rewrite <- app_assoc.
Qed.

Lemma site_fold_dirty (pauli : ascii) (l : list nat) :
  pauli <> "I"%char ->
  forall s h,
    is_identity s = false -> Forall (fun t => identity_term t = false) h ->
    is_identity (fst (fold_left (site_step n1 n2 weight pauli) l (s, h)))
      = false /\
    Forall (fun t => identity_term t = false)
      (snd (fold_left (site_step n1 n2 weight pauli) l (s, h))).
Proof.
  intros Hp. induction l as [|i l IH]; intros s h Hs Hh; simpl.
  - now split.
  - assert (Hs' : is_identity
                    (if Nat.eqb i n1 || Nat.eqb i n2
                     then overwrite s i pauli else s) = false).
    { destruct (Nat.eqb i n1 || Nat.eqb i n2);
        [now apply is_identity_overwrite|exact Hs]. }
    apply IH; [exact Hs'|].
    apply Forall_app. split; [exact Hh|]. constructor; [exact Hs'|constructor].
Qed.

Lemma axis_fold_dirty (len_g : nat) (ps : list ascii) :
  (forall p, In p ps -> p <> "I"%char) ->
  forall s h,
    is_identity s = false -> Forall (fun t => identity_term t = false) h ->
    Forall (fun t => identity_term t = false)
      (snd (fold_left (axis_step len_g n1 n2 weight) ps (s, h))).
Proof.
  induction ps as [|p ps IH]; intros Hps s h Hs Hh; simpl; [exact Hh|].
  assert (Hp : p <> "I"%char) by (apply Hps; now left).
  destruct (site_fold_dirty p (seq 0 len_g) Hp s h Hs Hh) as [Hs' Hh'].
  unfold axis_step at 2.
  destruct (fold_left (site_step n1 n2 weight p) (seq 0 len_g) (s, h))
    as [s' h'].
  apply IH; [intros q Hq; apply Hps; now right|exact Hs'|exact Hh'].
Qed.

(** The terms of an edge whose smaller endpoint [c] is a site of the
    string: [c] all-identity terms, then only strings that are not. *)
Lemma edge_terms_shape (n : nat) :
  (Nat.min n1 n2 < n)%nat ->
  exists rest,
    edge_terms n (n1, n2, weight) =
      repeat (repeat "I"%char n, weight) (Nat.min n1 n2) ++ rest /\
    Forall (fun t => identity_term t = false) rest.
Proof.
  set (c := Nat.min n1 n2). intros Hc.
  set (I := repeat "I"%char n).
  set (hit := overwrite I c "X"%char).
  assert (Hhit : is_identity hit = false)
    by (apply is_identity_overwrite; discriminate).
  set (st := fold_left (site_step n1 n2 weight "X"%char)
               (seq (S c) (n - S c)) (hit, [])).
  assert (HX : axis_step n n1 n2 weight (I, []) "X"%char =
               (fst st, repeat (I, weight) c ++ (hit, weight) :: snd st)).
  { unfold axis_step.
    replace n with (c + S (n - S c))%nat at 1 by lia.
    rewrite seq_app, fold_left_app. simpl seq.
    rewrite site_fold_miss by (intros i Hi; apply in_seq in Hi; lia).
    rewrite length_seq. simpl fold_left.
    replace (Nat.eqb c n1 || Nat.eqb c n2) with true.
    - fold hit. rewrite site_fold_app. fold st.
      rewrite <- app_assoc. reflexivity.
    - symmetry. apply orb_true_iff. rewrite !Nat.eqb_eq. lia. }
  destruct (site_fold_dirty "X"%char (seq (S c) (n - S c))
              ltac:(discriminate) hit [] Hhit (Forall_nil _)) as [Hs Hh].
  fold st in Hs, Hh.
  exists ((hit, weight) :: snd st ++
          snd (fold_left (axis_step n n1 n2 weight) ["Y"; "Z"]%char
                 (fst st, []))).
  split.
  - unfold edge_terms, edge_step, paulis. fold I.
    change (fold_left (axis_step n n1 n2 weight) ["X"; "Y"; "Z"]%char (I, []))
      with (fold_left (axis_step n n1 n2 weight) ["Y"; "Z"]%char
              (axis_step n n1 n2 weight (I, []) "X"%char)).
    rewrite HX, axis_fold_app. cbn [snd].
    rewrite <- app_assoc. reflexivity.
  - constructor; [exact Hhit|]. apply Forall_app. split; [exact Hh|].
    apply axis_fold_dirty; [|exact Hs|constructor].
    intros p [<-|[<-|[]]]; discriminate.
Qed.

End Identity.

Lemma filter_dirty (ts : list term) :
  Forall (fun t => identity_term t = false) ts -> filter identity_term ts = [].
Proof.
  induction 1 as [|t ts Ht _ IH]; simpl; [reflexivity|]. now rewrite Ht.
Qed.

Lemma filter_identity_repeat (n k : nat) (w : R) :
  filter identity_term (repeat (repeat "I"%char n, w) k) =
  repeat (repeat "I"%char n, w) k.
Proof.
  induction k as [|k IH]; [reflexivity|].
  cbn [repeat filter]. unfold identity_term at 1. cbn [fst].
  now rewrite is_identity_repeat, IH.
Qed.

Lemma coupling_nonzero (n : Z) (p q : momentum3) :
  (0 < n)%Z -> inner p q <> 1 -> define_forward_scattering_term n p q <> 0.
Proof.
  intros Hn Hpq. unfold define_forward_scattering_term.
  assert (Hs : 0 < sqrt 2) by (apply sqrt_lt_R0; lra).
  assert (Hz : 0 < IZR n) by now apply IZR_lt.
  assert (Hf : 0 < 1 / (sqrt 2 * IZR n)).
  { apply Rdiv_lt_0_compat; [lra|]. now apply Rmult_lt_0_compat. }
  apply Rmult_integral_contrapositive_currified; lra.
Qed.

(** C9. The expansion of an edge [(a, b)] whose smaller endpoint is a
    site of the string starts with [min a b] terms whose operator string
    is all identity and which carry the weight of the edge, and has no
    other all-identity term.  In the pipeline every edge has [a < b], so
    these are its first [a] terms; with three particles or more the
    Hamiltonian contains an all-identity term carrying the coupling of
    particles 1 and 2, which is nonzero unless their momenta have inner
    product 1. *)
Theorem identity_terms_per_edge
    (n : Z) (site_interactions : R) (draws : nat -> R * R * R) :
  let N := Z.to_nat n in
  (forall a b w, (Nat.min a b < N)%nat ->
     firstn (Nat.min a b) (edge_terms N (a, b, w)) =
       repeat (repeat "I"%char N, w) (Nat.min a b) /\
     length (filter identity_term (edge_terms N (a, b, w))) = Nat.min a b) /\
  exists g,
    option_map flatten_nx_graph
      (generate_heisenberg_graph n site_interactions draws) = Some g /\
    length (nodes g) = N /\
    generate_forward_scattering n site_interactions draws =
      Some (flat_map (edge_terms N) (edges g)) /\
    (forall a b w, In (a, b, w) (edges g) ->
       (a < b < N)%nat /\
       firstn a (edge_terms N (a, b, w)) = repeat (repeat "I"%char N, w) a /\
       length (filter identity_term (edge_terms N (a, b, w))) = a) /\
    ((3 <= n)%Z ->
       In (repeat "I"%char N, coupling n draws 1 2)
         (flat_map (edge_terms N) (edges g)) /\
       (inner (momentum_of draws 1) (momentum_of draws 2) <> 1 ->
        coupling n draws 1 2 <> 0)).
Proof.
  intros N.
  assert (Shape : forall a b w, (Nat.min a b < N)%nat ->
     firstn (Nat.min a b) (edge_terms N (a, b, w)) =
       repeat (repeat "I"%char N, w) (Nat.min a b) /\
     length (filter identity_term (edge_terms N (a, b, w))) = Nat.min a b).
  { intros a b w Hc.
    destruct (edge_terms_shape a b w N Hc) as [rest [E Hrest]].
    rewrite E. split.
    - rewrite firstn_app, repeat_length, Nat.sub_diag. simpl firstn at 2.
      rewrite app_nil_r. apply firstn_all2. rewrite repeat_length. lia.
    - rewrite filter_app, filter_identity_repeat, (filter_dirty rest Hrest).
      now rewrite app_nil_r, repeat_length. }
  split; [exact Shape|].
  eexists. split; [apply flattened_graph_closed|].
  rewrite edges_table_complete. fold N.
  split; [|split; [|split]].
  - unfold nodes, table_graph. simpl g_node. now rewrite keys_tab, length_seq.
  - apply generate_forward_scattering_closed.
  - intros a b w H. apply in_complete_edges in H. destruct H as [Hab _].
    split; [exact Hab|].
    destruct (Shape a b w) as [S1 S2]; [lia|].
    rewrite Nat.min_l in S1, S2 by lia. now split.
  - intros Hn. split.
    + apply in_flat_map. exists (1%nat, 2%nat, coupling n draws 1 2). split.
      * apply in_complete_edges. split; [unfold N; lia|reflexivity].
      * destruct (edge_terms_shape 1 2 (coupling n draws 1 2) N) as [rest [E _]];
          [simpl; unfold N; lia|].
        rewrite E. now left.
    + apply coupling_nonzero. lia.
Qed.

(** * Further properties of the expansion *)

(** ** The buffer in closed form *)

Lemma overwrite_map_seq (f : nat -> ascii) (c : ascii) (m : nat) :
  forall a i, (i < m)%nat ->
    overwrite (map f (seq a m)) i c =
    map (fun p => if Nat.eqb p (a + i) then c else f p) (seq a m).
Proof.
  induction m as [|m IH]; intros a i Hi; [lia|].
  destruct i as [|i].
  - unfold overwrite. simpl. rewrite Nat.add_0_r, Nat.eqb_refl. f_equal.
    apply map_ext_in. intros p Hp. apply in_seq in Hp.
    destruct (Nat.eqb_spec p a); [lia|reflexivity].
  - unfold overwrite in *. simpl. rewrite (IH (S a) i) by lia.
    destruct (Nat.eqb_spec a (a + S i)); [lia|]. f_equal.
    apply map_ext. intros p. now rewrite Nat.add_succ_r.
Qed.

Section Passes.

Variables (n n1 n2 : nat) (weight : R).

Lemma buffer_step (prev cur : ascii) (j : nat) :
  (j < n)%nat ->
  (if Nat.eqb j n1 || Nat.eqb j n2
   then overwrite (buffer n n1 n2 prev cur j) j cur
   else buffer n n1 n2 prev cur j) =
  buffer n n1 n2 prev cur (S j).
Proof.
  intros Hj. fold (hit n1 n2 j). unfold buffer.
  destruct (hit n1 n2 j) eqn:Hh.
  - rewrite overwrite_map_seq by exact Hj. apply map_ext. intros p. simpl.
    destruct (Nat.eqb_spec p j) as [->|Ne].
    + rewrite Hh. destruct (Nat.ltb_spec j (S j)); [reflexivity|lia].
    + destruct (Nat.ltb_spec p j), (Nat.ltb_spec p (S j));
        try reflexivity; lia.
  - apply map_ext. intros p. destruct (hit n1 n2 p) eqn:Hp; [|reflexivity].
    destruct (Nat.eqb_spec p j) as [->|Ne]; [congruence|].
    destruct (Nat.ltb_spec p j), (Nat.ltb_spec p (S j)); try reflexivity; lia.
Qed.

Lemma buffer_full (prev cur next : ascii) :
  buffer n n1 n2 prev cur n = buffer n n1 n2 cur next 0.
Proof.
  unfold buffer. apply map_ext_in. intros p Hp. apply in_seq in Hp.
  destruct (Nat.ltb_spec p n); [reflexivity|lia].
Qed.

Lemma buffer_initial (cur : ascii) :
  repeat "I"%char n = buffer n n1 n2 "I" cur 0.
Proof.
  unfold buffer. rewrite <- (length_seq n 0) at 1.
  rewrite <- map_const. apply map_ext. intros p.
  now destruct (hit n1 n2 p).
Qed.

Lemma buffer_two_body (prev cur : ascii) :
  buffer n n1 n2 prev cur n = two_body n n1 n2 cur.
Proof.
  unfold buffer, two_body. apply map_ext_in. intros p Hp. apply in_seq in Hp.
  destruct (Nat.ltb_spec p n); [reflexivity|lia].
Qed.

Lemma site_scan (prev cur : ascii) (m : nat) :
  (m <= n)%nat ->
  forall h,
    fold_left (site_step n1 n2 weight cur) (seq 0 m)
      (buffer n n1 n2 prev cur 0, h) =
    (buffer n n1 n2 prev cur m,
     h ++ map (fun i => (buffer n n1 n2 prev cur (S i), weight)) (seq 0 m)).
Proof.
  induction m as [|m IH]; intros Hm h.
  - simpl. now rewrite app_nil_r.
  - rewrite seq_S, fold_left_app, IH by lia. simpl fold_left. unfold site_step.
    rewrite buffer_step by lia.
    rewrite map_app, app_assoc. reflexivity.
Qed.

Lemma axis_scan (prev cur : ascii) (h : list term) :
  axis_step n n1 n2 weight (buffer n n1 n2 prev cur 0, h) cur =
  (buffer n n1 n2 prev cur n,
   h ++ map (fun i => (buffer n n1 n2 prev cur (S i), weight)) (seq 0 n)).
Proof. unfold axis_step. now apply site_scan. Qed.

End Passes.

Lemma edge_terms_passes (n n1 n2 : nat) (weight : R) :
  edge_terms n (n1, n2, weight) =
  flat_map
    (fun k => map (fun i => (buffer n n1 n2 (level k) (level (S k)) (S i),
                             weight))
                (seq 0 n))
    [0; 1; 2]%nat.
Proof.
  unfold edge_terms, edge_step, paulis.
  rewrite (buffer_initial n n1 n2 "X").
  change (fold_left (axis_step n n1 n2 weight) ["X"; "Y"; "Z"]%char
            (buffer n n1 n2 "I" "X" 0, []))
    with (axis_step n n1 n2 weight
            (axis_step n n1 n2 weight
               (axis_step n n1 n2 weight (buffer n n1 n2 "I" "X" 0, []) "X")
               "Y") "Z").
  rewrite axis_scan, (buffer_full n n1 n2 "I" "X" "Y").
  rewrite axis_scan, (buffer_full n n1 n2 "X" "Y" "Z").
  rewrite axis_scan. cbn [snd flat_map app].
  rewrite app_nil_r, <- app_assoc. reflexivity.
Qed.

Lemma nth_map_seq {A} (f : nat -> A) (n p : nat) (d : A) :
  (p < n)%nat -> nth p (map f (seq 0 n)) d = f p.
Proof.
  intros Hp. rewrite (nth_indep _ d (f 0%nat))
    by now rewrite length_map, length_seq.
  rewrite map_nth, seq_nth by exact Hp. reflexivity.
Qed.

Lemma in_edge_terms (n n1 n2 : nat) (weight : R) (t : list ascii * R) :
  In t (edge_terms n (n1, n2, weight)) <->
  exists k i, (k < 3)%nat /\ (i < n)%nat /\
    t = (buffer n n1 n2 (level k) (level (S k)) (S i), weight).
Proof.
  rewrite edge_terms_passes, in_flat_map. split.
  - intros [k [Hk Ht]]. apply in_map_iff in Ht. destruct Ht as [i [<- Hi]].
    apply in_seq in Hi. exists k, i. repeat split; try lia.
    simpl in Hk. lia.
  - intros [k [i [Hk [Hi ->]]]]. exists k. split.
    + simpl. lia.
    + apply in_map_iff. exists i. split; [reflexivity|apply in_seq; lia].
Qed.

Lemma level_alphabet (k : nat) : in_alphabet (level k).
Proof.
  unfold in_alphabet, level.
  destruct k as [|[|[|[|k]]]]; simpl; auto.
  destruct k; auto.
Qed.

Lemma in_nx_heisenberg_terms (g : Graph) (t : list ascii * R) :
  In t (nx_heisenberg_terms g) <->
  exists a b w k i,
    In (a, b, w) (edges g) /\ (k < 3)%nat /\ (i < length (nodes g))%nat /\
    t = (buffer (length (nodes g)) a b (level k) (level (S k)) (S i), w).
Proof.
  rewrite nx_heisenberg_terms_flat_map, in_flat_map. split.
  - intros [[[a b] w] [He Ht]]. apply in_edge_terms in Ht.
    destruct Ht as [k [i [Hk [Hi ->]]]]. exists a, b, w, k, i. auto.
  - intros [a [b [w [k [i [He [Hk [Hi ->]]]]]]]]. exists (a, b, w).
    split; [exact He|]. apply in_edge_terms. exists k, i. auto.
Qed.

(** Every operator string of the Hamiltonian of a graph has exactly as
    many symbols as the graph has nodes, all of them among I, X, Y, Z. *)
Theorem operator_strings_well_formed (g : Graph) :
  Forall (fun t => length (fst t) = length (nodes g) /\
                   Forall in_alphabet (fst t))
    (nx_heisenberg_terms g).
Proof.
  apply Forall_forall. intros t Ht. apply in_nx_heisenberg_terms in Ht.
  destruct Ht as [a [b [w [k [i [_ [_ [_ ->]]]]]]]]. simpl. split.
  - unfold buffer. now rewrite length_map, length_seq.
  - unfold buffer. apply Forall_map, Forall_forall. intros p _.
    destruct (hit a b p); [|left; reflexivity].
    destruct (Nat.ltb p (S i)); apply level_alphabet.
Qed.

(** The weight of every term is the weight of an edge of the graph, and
    the [3 * N] terms of an edge all carry the weight of that edge. *)
Theorem term_weights (g : Graph) :
  (forall s w, In (s, w) (nx_heisenberg_terms g) ->
     exists a b, In (a, b, w) (edges g)) /\
  (forall n a b w, map snd (edge_terms n (a, b, w)) = repeat w (3 * n)).
Proof.
  split.
  - intros s w Ht. apply in_nx_heisenberg_terms in Ht.
    destruct Ht as [a [b [w' [k [i [He [_ [_ E]]]]]]]].
    injection E as _ ->. now exists a, b.
  - intros n a b w. rewrite edge_terms_passes. cbn [flat_map].
    rewrite app_nil_r, !map_app, !map_map. cbn [snd].
    rewrite !map_const, !length_seq, <- !repeat_app.
    f_equal. lia.
Qed.

(** The expansion of an edge never writes a site that is not one of its
    endpoints: such a site reads I in every term.  In particular an edge
    whose endpoints are both outside [0..n-1] gives all-identity terms
    only. *)
Theorem sites_off_the_edge (n a b : nat) (w : R) :
  (forall t p, In t (edge_terms n (a, b, w)) -> hit a b p = false ->
     nth p (fst t) "I"%char = "I"%char) /\
  ((n <= a)%nat -> (n <= b)%nat ->
   edge_terms n (a, b, w) = repeat (repeat "I"%char n, w) (3 * n)).
Proof.
  split.
  - intros t p Ht Hp. apply in_edge_terms in Ht.
    destruct Ht as [k [i [_ [_ ->]]]]. cbn [fst]. unfold buffer.
    destruct (Nat.lt_ge_cases p n) as [Lt|Ge].
    + rewrite nth_map_seq by exact Lt. now rewrite Hp.
    + apply nth_overflow. now rewrite length_map, length_seq.
  - intros Ha Hb. rewrite edge_terms_passes. cbn [flat_map].
    assert (E : forall k i,
               buffer n a b (level k) (level (S k)) (S i) = repeat "I"%char n).
    { intros k i. unfold buffer. rewrite <- (length_seq n 0) at 2.
      rewrite <- map_const. apply map_ext_in. intros p Hp. apply in_seq in Hp.
      unfold hit. destruct (Nat.eqb_spec p a); [lia|].
      destruct (Nat.eqb_spec p b); [lia|reflexivity]. }
    assert (M : forall k,
               map (fun i => (buffer n a b (level k) (level (S k)) (S i), w))
                 (seq 0 n) = repeat (repeat "I"%char n, w) n).
    { intros k.
      rewrite (map_ext _ (fun _ => (repeat "I"%char n, w)))
        by (intros i; now rewrite E).
      now rewrite map_const, length_seq. }
    rewrite app_nil_r, !M, <- !repeat_app. f_equal. lia.
Qed.

Lemma nth_blocks {A} (g : nat -> nat -> A) (n : nat) (d : A) (K : nat) :
  forall a k i, (k < K)%nat -> (i < n)%nat ->
    nth (k * n + i)
      (flat_map (fun k => map (g k) (seq 0 n)) (seq a K)) d = g (a + k)%nat i.
Proof.
  induction K as [|K IH]; intros a k i Hk Hi; [lia|].
  cbn [seq flat_map]. destruct k as [|k].
  - rewrite app_nth1 by now rewrite length_map, length_seq.
    rewrite Nat.add_0_r. now apply nth_map_seq.
  - rewrite app_nth2; rewrite length_map, length_seq; [|simpl; lia].
    replace (S k * n + i - n)%nat with (k * n + i)%nat by (simpl; lia).
    rewrite IH by lia. f_equal. lia.
Qed.

Lemma nth_edge_terms (n n1 n2 : nat) (weight : R) (k i : nat)
    (d : list ascii * R) :
  (k < 3)%nat -> (i < n)%nat ->
  nth (k * n + i) (edge_terms n (n1, n2, weight)) d =
  (buffer n n1 n2 (level k) (level (S k)) (S i), weight).
Proof.
  intros Hk Hi. rewrite edge_terms_passes.
  change [0; 1; 2]%nat with (seq 0 3).
  now rewrite (nth_blocks
                 (fun k i => (buffer n n1 n2 (level k) (level (S k)) (S i),
                              weight))).
Qed.

(** The terms of one edge in closed form.  The term appended at site [i]
    of pass [k] (number [k * n + i] of the edge) is the buffer in which
    the endpoints up to [i] read the symbol of pass [k] and the endpoints
    after [i] still read the symbol of the pass before (I for the first
    pass), every other site reads I; its weight is the weight of the
    edge. *)
Theorem edge_terms_closed_form (n n1 n2 : nat) (weight : R) :
  edge_terms n (n1, n2, weight) =
    flat_map
      (fun k => map (fun i => (buffer n n1 n2 (level k) (level (S k)) (S i),
                               weight))
                  (seq 0 n))
      [0; 1; 2]%nat /\
  (forall k i d, (k < 3)%nat -> (i < n)%nat ->
     nth (k * n + i) (edge_terms n (n1, n2, weight)) d =
     (map (fun p => if Nat.eqb p n1 || Nat.eqb p n2
                    then (if Nat.leb p i then level (S k) else level k)
                    else "I"%char)
        (seq 0 n),
      weight)).
Proof.
  split; [apply edge_terms_passes|].
  intros k i d Hk Hi. rewrite nth_edge_terms by assumption. reflexivity.
Qed.

Lemma edge_terms_closed_form_witness :
  nth (1 * 4 + 2) (edge_terms 4 (1%nat, 3%nat, 0)) ([], 0) =
  (list_ascii_of_string "IYIX", 0).
Proof.
  destruct (edge_terms_closed_form 4 1 3 0) as [_ H].
  rewrite (H 1%nat 2%nat ([], 0)); [reflexivity|lia|lia].
Defined.

(** The last term of every axis pass is the two-body operator of the
    edge: the axis symbol on both endpoints and I elsewhere.  So the
    Hamiltonian of the pipeline contains, for every pair [i < j] of
    particles and every axis, the two-body term on [i] and [j] with the
    coupling of the pair. *)
Theorem two_body_terms (n : Z) (s : R) (draws : nat -> R * R * R) :
  (forall N a b w k d, (k < 3)%nat -> (0 < N)%nat ->
     nth (k * N + (N - 1)) (edge_terms N (a, b, w)) d =
     (two_body N a b (level (S k)), w)) /\
  exists terms,
    generate_forward_scattering n s draws = Some terms /\
    forall i j pauli, (i < j < Z.to_nat n)%nat -> In pauli paulis ->
      In (two_body (Z.to_nat n) i j pauli, coupling n draws i j) terms.
Proof.
  split.
  - intros N a b w k d Hk HN. rewrite nth_edge_terms by lia.
    replace (S (N - 1)) with N by lia. now rewrite buffer_two_body.
  - eexists. split; [apply generate_forward_scattering_closed|].
    intros i j pauli Hij Hp. apply in_flat_map.
    exists (i, j, coupling n draws i j). split.
    + apply in_complete_edges. split; [exact Hij|reflexivity].
    + apply in_edge_terms.
      assert (Hk : exists k, (k < 3)%nat /\ pauli = level (S k)).
      { destruct Hp as [<-|[<-|[<-|[]]]];
          [exists 0%nat|exists 1%nat|exists 2%nat]; split; auto. }
      destruct Hk as [k [Hk ->]]. exists k, (Z.to_nat n - 1)%nat.
      split; [exact Hk|]. split; [lia|].
      replace (S (Z.to_nat n - 1)) with (Z.to_nat n) by lia.
      now rewrite buffer_two_body.
Qed.

(** A term appended at a site that is not an endpoint of the edge
    repeats the term appended just before it (the first term of the edge
    excepted, which has no predecessor in the edge). *)
Theorem off_edge_terms_repeat (n a b : nat) (w : R) (k i : nat)
    (d : list ascii * R) :
  (k < 3)%nat -> (i < n)%nat -> (0 < k * n + i)%nat ->
  hit a b i = false ->
  nth (k * n + i) (edge_terms n (a, b, w)) d =
  nth (k * n + i - 1) (edge_terms n (a, b, w)) d.
Proof.
  intros Hk Hi Hpos Hh.
  assert (Hstep : forall prev cur,
             buffer n a b prev cur (S i) = buffer n a b prev cur i).
  { intros prev cur. rewrite <- buffer_step by exact Hi.
    fold (hit a b i). now rewrite Hh. }
  rewrite nth_edge_terms by assumption. rewrite Hstep.
  destruct i as [|i].
  - destruct k as [|k]; [lia|].
    replace (S k * n + 0 - 1)%nat with (k * n + (n - 1))%nat by (simpl; lia).
    rewrite nth_edge_terms by lia.
    replace (S (n - 1)) with n by lia.
    now rewrite (buffer_full n a b (level k) (level (S k)) (level (S (S k)))).
  - replace (k * n + S i - 1)%nat with (k * n + i)%nat by lia.
    now rewrite nth_edge_terms by lia.
Qed.

Lemma off_edge_terms_repeat_witness :
  nth (1 * 4 + 2) (edge_terms 4 (1%nat, 3%nat, 0)) ([], 0) =
  nth (1 * 4 + 2 - 1) (edge_terms 4 (1%nat, 3%nat, 0)) ([], 0).
Proof.
  apply (off_edge_terms_repeat 4 1 3 0 1 2 ([], 0)); try lia. reflexivity.
Defined.

(** * Further properties of the pipeline *)


Lemma filter_flat_map {A B} (f : B -> bool) (g : A -> list B) (l : list A) :
  filter f (flat_map g l) = flat_map (fun x => filter f (g x)) l.
Proof.
  induction l as [|x l IH]; [reflexivity|].
  cbn [flat_map]. now rewrite filter_app, IH.
Qed.

Lemma flat_map_flat_map {A B C} (f : B -> list C) (g : A -> list B)
    (l : list A) :
  flat_map f (flat_map g l) = flat_map (fun x => flat_map f (g x)) l.
Proof.
  induction l as [|x l IH]; [reflexivity|].
  cbn [flat_map]. now rewrite flat_map_app, IH.
Qed.

Lemma flat_map_map {A B C} (f : B -> list C) (h : A -> B) (l : list A) :
  flat_map f (map h l) = flat_map (fun x => f (h x)) l.
Proof.
  induction l as [|x l IH]; [reflexivity|].
  cbn [map flat_map]. now rewrite IH.
Qed.


Lemma edge_identity_count (n a b : nat) (w : R) :
  (Nat.min a b < n)%nat ->
  length (filter identity_term (edge_terms n (a, b, w))) = Nat.min a b.
Proof.
  intros Hc. destruct (edge_terms_shape a b w n Hc) as [rest [E Hrest]].
  rewrite E, filter_app, filter_identity_repeat, (filter_dirty rest Hrest).
  now rewrite app_nil_r, repeat_length.
Qed.

Lemma row_identity_count (n : nat) (W : nat -> nat -> R) (i c : nat) :
  forall a, (i < n)%nat -> (i < a)%nat ->
    length (flat_map
              (fun j => filter identity_term (edge_terms n (i, j, W i j)))
              (seq a c)) = (i * c)%nat.
Proof.
  induction c as [|c IH]; intros a Hi Ha; [simpl; lia|].
  cbn [seq flat_map]. rewrite length_app, IH by lia.
  rewrite edge_identity_count by lia. rewrite Nat.min_l by lia. lia.
Qed.

Lemma identity_count_scan (n : nat) (W : nat -> nat -> R) (k : nat) :
  (k <= n)%nat ->
  (6 * length
         (flat_map
            (fun i => flat_map
                        (fun j => filter identity_term
                                    (edge_terms n (i, j, W i j)))
                        (seq (S i) (n - S i)))
            (seq 0 k))
   + k * (k - 1) * (2 * k + 2) = 3 * n * (k * (k - 1)))%nat.
Proof.
  induction k as [|k IH]; intros Hk; [cbn [seq flat_map length]; lia|].
  rewrite seq_S, flat_map_app, length_app. cbn [flat_map Nat.add].
  rewrite app_nil_r, row_identity_count by lia.
  specialize (IH ltac:(lia)).
  destruct k as [|k]; [simpl; lia|].
  replace (S (S k) - 1)%nat with (S k) by lia.
  replace (S k - 1)%nat with k in IH by lia.
  replace (n - S (S k))%nat with (n - 2 - k)%nat by lia.
  assert (E : (n = (n - 2 - k) + k + 2)%nat) by lia.
  set (r := (n - 2 - k)%nat) in *. clearbody r. subst n. nia.
Qed.

(** The Hamiltonian of [n] particles contains exactly
    [n * (n - 1) * (n - 2) / 6] all-identity terms: one for every pair
    and every particle below the smaller of the two. *)
Theorem identity_terms_total (n : Z) (s : R) (draws : nat -> R * R * R) :
  let N := Z.to_nat n in
  exists terms,
    generate_forward_scattering n s draws = Some terms /\
    (6 * length (filter identity_term terms) = N * (N - 1) * (N - 2))%nat.
Proof.
  intros N. eexists. split; [apply generate_forward_scattering_closed|].
  fold N. unfold complete_edges.
  rewrite filter_flat_map, flat_map_flat_map.
  assert (H := identity_count_scan N (coupling n draws) N (Nat.le_refl N)).
  erewrite flat_map_ext;
    [|intros i; cbn beta; rewrite flat_map_map; reflexivity].
  revert H. set (c := length _). clearbody c. intros H.
  destruct N as [|[|r]]; [lia|lia|].
  replace (S (S r) - 1)%nat with (S r) in * by lia.
  replace (S (S r) - 2)%nat with r by lia. nia.
Qed.

(** * Further properties of the coupling and of the momenta *)

Lemma squares_zero (a b c : R) : a ^ 2 + b ^ 2 + c ^ 2 = 0 -> a = 0 /\ b = 0 /\ c = 0.
Proof.
  intros H.
  assert (Ha := pow2_ge_0 a). assert (Hb := pow2_ge_0 b).
  assert (Hc := pow2_ge_0 c).
  repeat split; apply Rsqr_0_uniq; unfold Rsqr; lra.
Qed.

(** For unit momenta and a positive particle count the coupling
    vanishes exactly when the two momenta are equal, and it reaches
    [sqrt 2 / n] exactly when they are opposite. *)
Theorem coupling_extremes (n : Z) (px py pz qx qy qz : R) :
  (0 < n)%Z -> norm (px, py, pz) = 1 -> norm (qx, qy, qz) = 1 ->
  (define_forward_scattering_term n (px, py, pz) (qx, qy, qz) = 0 <->
   (px, py, pz) = (qx, qy, qz)) /\
  (define_forward_scattering_term n (px, py, pz) (qx, qy, qz)
     = sqrt 2 / IZR n <->
   (qx, qy, qz) = (- px, - py, - pz)).
Proof.
  intros Hn Hp Hq.
  apply unit_norm_squares in Hp. apply unit_norm_squares in Hq.
  unfold define_forward_scattering_term, inner in *.
  assert (Hs : 0 < sqrt 2) by (apply sqrt_lt_R0; lra).
  assert (Hss : sqrt 2 * sqrt 2 = 2) by (apply sqrt_sqrt; lra).
  assert (Hz : 0 < IZR n) by now apply IZR_lt.
  assert (Hf : 0 < 1 / (sqrt 2 * IZR n)).
  { apply Rdiv_lt_0_compat; [lra|]. now apply Rmult_lt_0_compat. }
  set (f := 1 / (sqrt 2 * IZR n)) in *.
  set (c := px * qx + py * qy + pz * qz).
  assert (Hmax : sqrt 2 / IZR n = f * 2).
  { unfold f. rewrite <- Hss at 3. field. split; lra. }
  split; split.
  - intros H. assert (Hc : c = 1).
    { destruct (Rmult_integral _ _ H); lra. }
    destruct (squares_zero (px - qx) (py - qy) (pz - qz)) as [A [B C]].
    + unfold c in Hc. lra.
    + f_equal; [f_equal|]; lra.
  - intros E. injection E as -> -> ->.
    replace c with 1 by (unfold c; lra). ring.
  - intros H. rewrite Hmax in H. assert (Hc : c = -1).
    { apply Rmult_eq_reg_l in H; lra. }
    destruct (squares_zero (px + qx) (py + qy) (pz + qz)) as [A [B C]].
    + unfold c in Hc. lra.
    + f_equal; [f_equal|]; lra.
  - intros E. injection E as -> -> ->. rewrite Hmax.
    replace c with (-1) by (unfold c; lra). ring.
Qed.

Lemma coupling_extremes_witness :
  define_forward_scattering_term 2 (1, 0, 0) (1, 0, 0) = 0 <->
  (1, 0, 0) = (1, 0, 0).
Proof.
  assert (U : norm (1, 0, 0) = 1).
  { unfold norm. replace (1 ^ 2 + 0 ^ 2 + 0 ^ 2) with 1 by ring.
    apply sqrt_1. }
  destruct (coupling_extremes 2 1 0 0 1 0 0) as [H _];
    [lia|exact U|exact U|exact H].
Defined.

(** The momentum depends on the direction of the draw only: scaling a
    draw of nonzero norm by a positive factor does not change it. *)
Theorem generate_spherical_momentum_scale (t x y z : R) :
  0 < t -> norm (x, y, z) <> 0 ->
  generate_spherical_momentum (t * x, t * y, t * z) =
  generate_spherical_momentum (x, y, z).
Proof.
  unfold norm, generate_spherical_momentum. intros Ht Hr.
  replace ((t * x) ^ 2 + (t * y) ^ 2 + (t * z) ^ 2)
    with (t ^ 2 * (x ^ 2 + y ^ 2 + z ^ 2)) by ring.
  rewrite sqrt_mult by (try apply sum_squares_nonneg; apply pow2_ge_0).
  rewrite sqrt_pow2 by lra.
  set (r := sqrt (x ^ 2 + y ^ 2 + z ^ 2)) in *.
  f_equal; [f_equal|]; field; split; lra.
Qed.

Lemma generate_spherical_momentum_scale_witness :
  generate_spherical_momentum (2 * 1, 2 * 0, 2 * 0) =
  generate_spherical_momentum (1, 0, 0).
Proof.
  apply (generate_spherical_momentum_scale 2 1 0 0); [lra|exact norm_100].
Defined.

(** * The run name *)

Lemma uint_chars (c : ascii) (d : Decimal.uint) :
  c = "_"%char \/ c = "e"%char ->
  has_char c (DecimalString.NilEmpty.string_of_uint d) = false.
Proof.
  intros [-> | ->]; induction d; simpl; auto.
Qed.

Lemma str_of_int_chars (c : ascii) (z : Z) :
  c = "_"%char \/ c = "e"%char -> has_char c (str_of_int z) = false.
Proof.
  intros Hc. unfold str_of_int.
  assert (U : forall d, has_char c (DecimalString.NilZero.string_of_uint d)
                        = false).
  { intros d. destruct d; try apply (uint_chars c _ Hc).
    destruct Hc as [-> | ->]; reflexivity. }
  destruct (Z.to_int z) as [d|d]; simpl.
  - apply U.
  - rewrite U. destruct Hc as [-> | ->]; reflexivity.
Qed.

Lemma str_of_int_inj (a b : Z) : str_of_int a = str_of_int b -> a = b.
Proof.
  unfold str_of_int. intros H.
  assert (N : forall z, Z.to_int z <> Decimal.Pos Decimal.Nil /\
                        Z.to_int z <> Decimal.Neg Decimal.Nil).
  { intros [|p|p]; simpl; split; try discriminate;
      intros E; injection E; apply DecimalPos.Unsigned.to_uint_nonnil. }
  apply (f_equal DecimalString.NilZero.int_of_string) in H.
  rewrite !DecimalString.NilZero.isi in H by apply N.
  injection H as H. apply (f_equal Z.of_int) in H.
  now rewrite !DecimalZ.of_to in H.
Qed.

Lemma split_at_char (c : ascii) (s1 : string) :
  forall s2 r1 r2,
    has_char c s1 = false -> has_char c s2 = false ->
    (s1 ++ String c r1)%string = (s2 ++ String c r2)%string ->
    s1 = s2 /\ r1 = r2.
Proof.
  induction s1 as [|a s1 IH]; intros [|b s2] r1 r2 H1 H2 E; simpl in *.
  - injection E as ->. now split.
  - injection E as <- _. now rewrite Ascii.eqb_refl in H2.
  - injection E as -> _. now rewrite Ascii.eqb_refl in H1.
  - injection E as -> E. apply orb_false_iff in H1, H2.
    destruct (IH s2 r1 r2) as [-> ->]; tauto.
Qed.

Lemma estimated_not_step (a n1 n2 : Z) :
  ("estimated_fs_" ++ str_of_int n1)%string <>
  (str_of_int a ++ "_step_fs_" ++ str_of_int n2)%string.
Proof.
  assert (H := str_of_int_chars "e" a (or_intror eq_refl)).
  destruct (str_of_int a) as [|c s]; simpl in *; [discriminate|].
  intros E. injection E as <- _. discriminate.
Qed.

(** Two runs get the same name exactly when they have the same particle
    count and the same step count, where a step count of 0 counts as no
    step count: [-T 0] is named like an estimated run. *)
Theorem hamiltonian_name_distinguishes (t1 t2 : option Z) (n1 n2 : Z) :
  hamiltonian_name t1 n1 = hamiltonian_name t2 n2 <->
  n1 = n2 /\ named_steps t1 = named_steps t2.
Proof.
  assert (Est : forall a b, ("estimated_fs_" ++ str_of_int a)%string =
                            ("estimated_fs_" ++ str_of_int b)%string <->
                            a = b).
  { intros a b. split; [|now intros ->]. simpl. intros E.
    injection E as E. now apply str_of_int_inj. }
  assert (Stp : forall a b c d,
             (str_of_int a ++ "_step_fs_" ++ str_of_int c)%string =
             (str_of_int b ++ "_step_fs_" ++ str_of_int d)%string <->
             a = b /\ c = d).
  { intros a b c d. split; [|now intros [-> ->]]. simpl. intros E.
    apply split_at_char in E;
      try (apply str_of_int_chars; now left).
    destruct E as [Ea Ec]. simpl in Ec. injection Ec as Ec.
    split; now apply str_of_int_inj. }
  unfold hamiltonian_name, named_steps, truthy.
  destruct t1 as [a|], t2 as [b|];
    try destruct (Z.eqb_spec a 0) as [->|Ha];
    try destruct (Z.eqb_spec b 0) as [->|Hb]; cbn [negb];
    rewrite ?Est, ?Stp;
    try (split; [intros E; split; [exact E|reflexivity]|tauto]).
  - split; [intros E|intros [_ E]; discriminate].
    now apply estimated_not_step in E.
  - split; [intros E|intros [_ E]; discriminate].
    symmetry in E. now apply estimated_not_step in E.
  - split; [intros [-> ->]; now split|intros [-> E]]. now injection E as ->.
  - split; [intros E|intros [_ E]; discriminate].
    symmetry in E. now apply estimated_not_step in E.
  - split; [intros E|intros [_ E]; discriminate].
    now apply estimated_not_step in E.
Qed.

(** * Multiplicity of the two-body terms *)

Lemma filter_map_count {A B} (f : A -> B) (P : B -> bool) (Q : A -> bool)
    (l : list A) :
  (forall x, In x l -> P (f x) = Q x) ->
  length (filter P (map f l)) = length (filter Q l).
Proof.
  induction l as [|x l IH]; intros H; [reflexivity|].
  cbn [map filter]. rewrite (H x (or_introl eq_refl)).
  assert (IH' := IH (fun y Hy => H y (or_intror Hy))).
  destruct (Q x); cbn [length]; now rewrite IH'.
Qed.

Section Multiplicity.

Variables (n a b : nat) (w : R).
Hypothesis Hab : (a < b < n)%nat.

Lemma buffer_is_two_body (prev cur c : ascii) (i : nat) :
  prev <> cur -> (i < n)%nat ->
  buffer n a b prev cur (S i) = two_body n a b c <->
  (c = cur /\ (b <= i)%nat) \/ (c = prev /\ (i < a)%nat).
Proof.
  intros Hpc Hi. unfold buffer, two_body. split.
  - intros E.
    assert (P : forall p, (p < n)%nat -> hit a b p = true ->
                (if Nat.ltb p (S i) then cur else prev) = c).
    { intros p Hp Hh.
      assert (Ep := E). rewrite map_ext_in_iff in Ep.
      specialize (Ep p ltac:(apply in_seq; lia)).
      cbn beta in Ep. now rewrite Hh in Ep. }
    assert (Pa := P a ltac:(lia)
                    ltac:(unfold hit; now rewrite Nat.eqb_refl)).
    assert (Pb := P b ltac:(lia)
                    ltac:(unfold hit; rewrite Nat.eqb_refl;
                          apply orb_true_r)).
    destruct (Nat.ltb_spec a (S i)), (Nat.ltb_spec b (S i)); subst;
      try (left; split; [reflexivity|lia]);
      try (right; split; [reflexivity|lia]);
      try congruence; lia.
  - intros H. apply map_ext_in. intros p Hp.
    destruct (hit a b p) eqn:Hh; [|reflexivity].
    unfold hit in Hh. apply orb_true_iff in Hh. rewrite !Nat.eqb_eq in Hh.
    destruct (Nat.ltb_spec p (S i)); destruct H as [[-> H]|[-> H]];
      try reflexivity; lia.
Qed.

Lemma segment_count (x y : bool) :
  length (filter (fun i => (x && Nat.leb b i) || (y && Nat.ltb i a))
            (seq 0 n)) =
  ((if x then n - b else 0) + (if y then a else 0))%nat.
Proof.
  replace n with (a + ((b - a) + (n - b)))%nat at 1 by lia.
  rewrite !seq_app, !filter_app, !length_app. cbn [Nat.add].
  replace (a + (b - a))%nat with b by lia.
  rewrite (filter_ext_in _ (fun _ => y) (seq 0 a)).
  - rewrite (filter_ext_in _ (fun _ => false) (seq a (b - a))).
    + rewrite (filter_ext_in _ (fun _ => x) (seq b (n - b))).
      * destruct x, y; rewrite ?filter_true, ?filter_false, ?length_seq;
          simpl; lia.
      * intros i Hin. apply in_seq in Hin.
        destruct (Nat.leb_spec b i), (Nat.ltb_spec i a);
          destruct x, y; try reflexivity; lia.
    + intros i Hin. apply in_seq in Hin.
      destruct (Nat.leb_spec b i), (Nat.ltb_spec i a);
        destruct x, y; try reflexivity; lia.
  - intros i Hin. apply in_seq in Hin.
    destruct (Nat.leb_spec b i), (Nat.ltb_spec i a);
      destruct x, y; try reflexivity; lia.
Qed.

Lemma pass_multiplicity (prev cur c : ascii) :
  prev <> cur ->
  multiplicity (two_body n a b c)
    (map (fun i => (buffer n a b prev cur (S i), w)) (seq 0 n)) =
  ((if Ascii.eqb c cur then n - b else 0) +
   (if Ascii.eqb c prev then a else 0))%nat.
Proof.
  intros Hpc. unfold multiplicity.
  rewrite <- (segment_count (Ascii.eqb c cur) (Ascii.eqb c prev)).
  apply filter_map_count. intros i Hin. apply in_seq in Hin. cbn [fst].
  destruct (list_eq_dec ascii_dec (buffer n a b prev cur (S i))
              (two_body n a b c)) as [E|NE].
  - apply buffer_is_two_body in E; [|exact Hpc|lia].
    destruct E as [[-> Hb]|[-> Ha]]; rewrite Ascii.eqb_refl.
    + destruct (Nat.leb_spec b i); [reflexivity|lia].
    + destruct (Nat.ltb_spec i a); [|lia]. now rewrite orb_true_r.
  - destruct ((Ascii.eqb c cur && Nat.leb b i)
              || (Ascii.eqb c prev && Nat.ltb i a)) eqn:T; [|reflexivity].
    exfalso. apply NE. apply buffer_is_two_body; [exact Hpc|lia|].
    apply orb_true_iff in T.
    rewrite !andb_true_iff, !Ascii.eqb_eq, Nat.leb_le, Nat.ltb_lt in T.
    exact T.
Qed.

End Multiplicity.

Lemma multiplicity_app (s : list ascii) (l1 l2 : list (list ascii * R)) :
  multiplicity s (l1 ++ l2) = (multiplicity s l1 + multiplicity s l2)%nat.
Proof. unfold multiplicity. now rewrite filter_app, length_app. Qed.

Lemma multiplicity_zero (s : list ascii) (ts : list (list ascii * R)) :
  (forall t, In t ts -> fst t <> s) -> multiplicity s ts = 0%nat.
Proof.
  intros H. unfold multiplicity.
  rewrite (filter_ext_in _ (fun _ => false)); [now rewrite filter_false|].
  intros t Ht. destruct (list_eq_dec ascii_dec (fst t) s) as [E|_];
    [now apply H in E|reflexivity].
Qed.

Lemma edge_multiplicity (n a b : nat) (w : R) :
  (a < b < n)%nat ->
  multiplicity (two_body n a b "X") (edge_terms n (a, b, w)) = (n - b + a)%nat /\
  multiplicity (two_body n a b "Y") (edge_terms n (a, b, w)) = (n - b + a)%nat /\
  multiplicity (two_body n a b "Z") (edge_terms n (a, b, w)) = (n - b)%nat.
Proof.
  intros Hab. rewrite edge_terms_passes. cbn [flat_map].
  rewrite app_nil_r, !multiplicity_app.
  rewrite !(pass_multiplicity n a b w Hab) by discriminate.
  cbv [level nth paulis]. cbn. lia.
Qed.

Lemma other_edge_multiplicity (n a b a' b' : nat) (w : R) (c : ascii) :
  (a < b < n)%nat -> (a' < b')%nat -> (a', b') <> (a, b) ->
  c <> "I"%char ->
  multiplicity (two_body n a b c) (edge_terms n (a', b', w)) = 0%nat.
Proof.
  intros Hab Hab' Hne Hc. apply multiplicity_zero. intros t Ht E.
  apply in_edge_terms in Ht. destruct Ht as [k [i [_ [_ ->]]]]. cbn [fst] in E.
  assert (Hp : exists p, (p < n)%nat /\ hit a b p = true /\
                         hit a' b' p = false).
  { unfold hit. destruct (Nat.eq_dec a a') as [Ea|Na].
    - exists b. split; [lia|]. rewrite Nat.eqb_refl, orb_true_r.
      split; [reflexivity|].
      destruct (Nat.eqb_spec b a'); [lia|].
      destruct (Nat.eqb_spec b b'); [subst; now elim Hne|reflexivity].
    - destruct (Nat.eq_dec a b') as [Eb|Nb].
      + exists b. split; [lia|]. rewrite Nat.eqb_refl, orb_true_r.
        split; [reflexivity|].
        destruct (Nat.eqb_spec b a'); [lia|].
        destruct (Nat.eqb_spec b b'); [lia|reflexivity].
      + exists a. split; [lia|]. rewrite Nat.eqb_refl.
        split; [reflexivity|].
        destruct (Nat.eqb_spec a a'); [lia|].
        destruct (Nat.eqb_spec a b'); [lia|reflexivity]. }
  destruct Hp as [p [Hp [Hh Hh']]].
  apply (f_equal (fun s => nth p s "I"%char)) in E.
  unfold buffer, two_body in E. rewrite !nth_map_seq in E by exact Hp.
  rewrite Hh, Hh' in E. now apply Hc.
Qed.

(** How often the two-body operators occur.  Among the terms of an edge
    [(a, b)], [a < b < n], the XX and the YY operator of the pair each
    occur [n - b + a] times and the ZZ operator [n - b] times; no other
    edge produces them, so these are their multiplicities in the whole
    Hamiltonian of the pipeline. *)
Theorem two_body_multiplicity
    (n : Z) (s : R) (draws : nat -> R * R * R) (i j : nat) :
  let N := Z.to_nat n in
  (i < j < N)%nat ->
  (forall w,
     multiplicity (two_body N i j "X") (edge_terms N (i, j, w))
       = (N - j + i)%nat /\
     multiplicity (two_body N i j "Y") (edge_terms N (i, j, w))
       = (N - j + i)%nat /\
     multiplicity (two_body N i j "Z") (edge_terms N (i, j, w))
       = (N - j)%nat) /\
  exists terms,
    generate_forward_scattering n s draws = Some terms /\
    multiplicity (two_body N i j "X") terms = (N - j + i)%nat /\
    multiplicity (two_body N i j "Y") terms = (N - j + i)%nat /\
    multiplicity (two_body N i j "Z") terms = (N - j)%nat.
Proof.
  intros N Hij. split; [intros w; now apply edge_multiplicity|].
  eexists. split; [apply generate_forward_scattering_closed|]. fold N.
  set (W := coupling n draws).
  assert (Hin : In (i, j, W i j) (complete_edges N W))
    by (apply in_complete_edges; split; [exact Hij|reflexivity]).
  assert (Hnd := complete_edges_NoDup N W).
  assert (Hall : forall a b w, In (a, b, w) (complete_edges N W) ->
                               (a < b)%nat)
    by (intros a b w H; apply in_complete_edges in H; lia).
  destruct (in_split _ _ Hin) as [l1 [l2 El]].
  rewrite El in Hnd, Hall |- *. clear El Hin.
  rewrite map_app in Hnd. cbn [map fst] in Hnd.
  apply NoDup_remove_2 in Hnd.
  assert (Hout : forall c l,
             c <> "I"%char ->
             (forall e, In e l -> In e (l1 ++ (i, j, W i j) :: l2)) ->
             ~ In (i, j) (map fst l) ->
             multiplicity (two_body N i j c) (flat_map (edge_terms N) l)
             = 0%nat).
  { intros c l Hc. induction l as [|[[a b] w] l IHl]; intros Hsub Hni;
      [reflexivity|].
    cbn [flat_map]. rewrite multiplicity_app, IHl.
    - rewrite other_edge_multiplicity; auto.
      + apply (Hall a b w), Hsub. now left.
      + intros E. apply Hni. left. exact E.
    - intros e He. apply Hsub. now right.
    - intros H. apply Hni. now right. }
  assert (H1 : forall c, c <> "I"%char ->
             multiplicity (two_body N i j c) (flat_map (edge_terms N) l1)
             = 0%nat).
  { intros c Hc. apply Hout; [exact Hc| |].
    - intros e He. apply in_or_app. now left.
    - intros H. apply Hnd. apply in_or_app. now left. }
  assert (H2 : forall c, c <> "I"%char ->
             multiplicity (two_body N i j c) (flat_map (edge_terms N) l2)
             = 0%nat).
  { intros c Hc. apply Hout; [exact Hc| |].
    - intros e He. apply in_or_app. right. now right.
    - intros H. apply Hnd. apply in_or_app. now right. }
  rewrite flat_map_app. cbn [flat_map]. rewrite !multiplicity_app.
  destruct (edge_multiplicity N i j (W i j) Hij) as [EX [EY EZ]].
  rewrite !H1, !H2, EX, EY, EZ by discriminate.
  repeat split; lia.
Qed.

Lemma two_body_multiplicity_witness :
  multiplicity (two_body 4 1 2 "X") (edge_terms 4 (1%nat, 2%nat, 0)) = 3%nat.
Proof.
  destruct (two_body_multiplicity 4 0 (fun _ => (1, 0, 0)) 1 2) as [H _];
    [simpl; lia|].
  destruct (H 0) as [HX _]. exact HX.
Defined.
